(** * mimesis.utils: locale data resolver and helper transforms

    A shallow embedding of [src/mimesis/utils.py].

    - Python [str] is [string] (ASCII text, so [str.lower] and [int] act
      on ASCII letters and digits); [int] is [Z]; paths are POSIX paths.
    - Exceptions are the constructors of [exn]; a call that may raise
      returns [res].
    - [dict] and [list] objects are mutable and have identity: they live in
      a heap of objects addressed by location, and a Python value is either
      a scalar or a reference into that heap.  [update_dict] writes to the
      heap in place, exactly where the source assigns [initial[key] = ...].
    - [functools.lru_cache] is a table from the call's arguments to the
      reference that the first successful call returned. *)

From Stdlib Require Import ZArith Lia DecimalString DecimalZ DecimalPos Ascii.
From stdpp Require Import base numbers list strings gmap.

Set Warnings "-register-all,-clear-no-such-hyp".

Open Scope Z_scope.

(** ** Exceptions and results *)

Inductive exn : Type :=
  | UnsupportedLocale (msg : string)
  | UnexpectedGender (msg : string)
  | FileNotFoundError (path : string)
  | JSONDecodeError (path : string)
  | KeyError (key : string)
  | IndexError
  | ValueError
  | TypeError
  | AttributeError
  | URLError (url : string)
  | RecursionError.

Inductive res (A : Type) : Type :=
  | Ok (a : A)
  | Err (e : exn).
Arguments Ok {A} a.
Arguments Err {A} e.

#[global] Instance res_ret : MRet res := λ A a, Ok a.
#[global] Instance res_bind : MBind res := λ A B f m,
  match m with
  | Ok a => f a
  | Err e => Err e
  end.

(** ** Python string operations used by the module *)

(** [str.lower] on ASCII text. *)
Definition lower_char (c : ascii) : ascii :=
  let n := N_of_ascii c in
  if ((65 <=? n) && (n <=? 90))%N then ascii_of_N (n + 32) else c.

Fixpoint lower (s : string) : string :=
  match s with
  | EmptyString => EmptyString
  | String c s' => String (lower_char c) (lower s')
  end.

(** [sep in s] for a one-character [sep]. *)
Fixpoint contains (sep : ascii) (s : string) : bool :=
  match s with
  | EmptyString => false
  | String c s' => if Ascii.eqb c sep then true else contains sep s'
  end.

(** [s.split(sep)[0]]: the text before the first [sep]. *)
Fixpoint split_head (sep : ascii) (s : string) : string :=
  match s with
  | EmptyString => EmptyString
  | String c s' => if Ascii.eqb c sep then EmptyString else String c (split_head sep s')
  end.

(** [s.rsplit(sep)[-1]]: the text after the last [sep]. *)
Fixpoint rsplit_last (sep : ascii) (s : string) : string :=
  match s with
  | EmptyString => EmptyString
  | String c s' => if contains sep s then rsplit_last sep s' else s
  end.

Definition startswith (c : ascii) (s : string) : bool :=
  match s with
  | String c' _ => Ascii.eqb c' c
  | EmptyString => false
  end.

Fixpoint endswith (c : ascii) (s : string) : bool :=
  match s with
  | EmptyString => false
  | String c' EmptyString => Ascii.eqb c' c
  | String _ s' => endswith c s'
  end.

(** [os.path.join(a, b)] on POSIX. *)
Definition path_join (a b : string) : string :=
  if startswith "/" b then b
  else if String.eqb a EmptyString || endswith "/" a then a +:+ b
  else a +:+ "/" +:+ b.

(** [str(n)] for an [int]. *)
Definition str_of_int (n : Z) : string := NilZero.string_of_int (Z.to_int n).

(** [sep.join(parts)]. *)
Definition join (sep : string) (parts : list string) : string := String.concat sep parts.

(** [sorted] on a list of strings (code-point order). *)
Fixpoint insert_sorted (x : string) (l : list string) : list string :=
  match l with
  | [] => [x]
  | y :: l' => if String.leb x y then x :: l else y :: insert_sorted x l'
  end.

Definition sorted (l : list string) : list string := foldr insert_sorted [] l.

(** ** Dictionaries as insertion-ordered association lists *)

(** [d.get(key)]. *)
Fixpoint dict_get {V : Type} (d : list (string * V)) (key : string) : option V :=
  match d with
  | [] => None
  | (k, v) :: d' => if String.eqb k key then Some v else dict_get d' key
  end.

(** [d[key] = v]: an existing key keeps its position, a new key goes last. *)
Fixpoint dict_set {V : Type} (d : list (string * V)) (key : string) (v : V)
    : list (string * V) :=
  match d with
  | [] => [(key, v)]
  | (k, w) :: d' =>
      if String.eqb k key then (k, v) :: d' else (k, w) :: dict_set d' key v
  end.

Definition dict_keys {V : Type} (d : list (string * V)) : list string := d.*1.

(** ** luhn_checksum *)

(** [int(s)] for a one-character string. *)
Definition int_of_char (s : ascii) : res Z :=
  let n := N_of_ascii s in
  if ((48 <=? n) && (n <=? 57))%N then Ok (Z.of_N n - 48) else Err ValueError.

(** The body of [for i, s in enumerate(reversed(...))], started at index [i]
    with the running total [check]. *)
Fixpoint luhn_loop (items : list ascii) (i : nat) (check : Z) : res Z :=
  match items with
  | [] => Ok check
  | s :: rest =>
      sx ← int_of_char s;
      let sx := if (i mod 2 =? 0)%nat then sx * 2 else sx in
      let sx := if 9 <? sx then sx - 9 else sx in
      luhn_loop rest (S i) (check + sx)
  end.

Definition luhn_checksum (num : string) : res string :=
  check ← luhn_loop (reverse (String.list_ascii_of_string num)) 0%nat 0;
  Ok (str_of_int (check * 9 mod 10)).

(** The checksum as the specification words it: position [i] counts from the
    least significant digit. *)
Definition luhn_term (i : nat) (d : Z) : Z :=
  let doubled := if Nat.even i then 2 * d else d in
  if 9 <? doubled then doubled - 9 else doubled.

Definition checksum_spec (digits : list Z) : Z :=
  (foldr Z.add 0 (imap luhn_term (reverse digits)) * 9) mod 10.

Definition is_digit (c : ascii) : Prop := (48 <= N_of_ascii c <= 57)%N.
Definition digit_val (c : ascii) : Z := Z.of_N (N_of_ascii c) - 48.
Definition digit_char (d : Z) : ascii := ascii_of_N (Z.to_N (48 + d)).

(** ** check_gender *)

(** The argument of [check_gender]: [None], an [int] or a [str]. *)
Inductive gender_arg : Type :=
  | GNone
  | GInt (n : Z)
  | GStr (s : string).

Definition str_of_gender (g : gender_arg) : string :=
  match g with
  | GNone => "None"
  | GInt n => str_of_int n
  | GStr s => s
  end.

(** [random.choice(seq)], the draw being the index [rnd]. *)
Definition choice {A : Type} (rnd : nat) (seq : list A) : res A :=
  match seq !! (rnd mod length seq)%nat with
  | Some x => Ok x
  | None => Err IndexError
  end.

Definition check_gender (rnd : nat) (gender : gender_arg) : res string :=
  let '(f, m) := ("female", "male") in
  o ← choice rnd [f; m];
  let options :=
    [("0", o); ("9", o); ("1", m); ("2", f); ("f", f); ("m", m); (f, f); (m, m)] in
  match gender with
  | GNone => Ok o
  | _ =>
      let supported := sorted (dict_keys options) in
      let gender := lower (str_of_gender gender) in
      if negb (bool_decide (gender ∈ supported)) then
        Err (UnexpectedGender ("Gender must be " +:+ join ", " supported +:+ "."))
      else
        match dict_get options gender with
        | Some g => Ok g
        | None => Err (KeyError gender)
        end
  end.

(** ** download_image *)

(** What the network helper can change: the process-wide HTTPS context and
    the transfers it attempted, most recent first. *)
Record net : Type := Net {
  https_context_replaced : bool;
  transfers : list (string * string);
}.

(** [download_image(url, save_path, unverified_ctx)]; [urlretrieve url dest]
    tells how [urllib.request.urlretrieve] ends ([None]: it returns). *)
Definition download_image (urlretrieve : string → string → option exn)
    (url : option string) (save_path : string) (unverified_ctx : bool) (w : net)
    : res (option string) * net :=
  let w := if unverified_ctx then Net true (transfers w) else w in
  match url with
  | Some url =>
      let image_name := rsplit_last "/" url in
      let w' := Net (https_context_replaced w) ((url, save_path +:+ image_name) :: transfers w) in
      match urlretrieve url (save_path +:+ image_name) with
      | Some e => (Err e, w')
      | None => (Ok (Some image_name), w')
      end
  | None => (Ok None, w)
  end.

(** The default of the [url] parameter. *)
Definition url_default : option string := Some EmptyString.

(** ** Documents and the object heap *)

(** Immutable Python values found in a parsed JSON text.  A float is kept as
    the literal it was read from; nothing in this module looks inside one. *)
Inductive scalar : Type :=
  | SNone
  | SBool (b : bool)
  | SInt (n : Z)
  | SFloat (literal : string)
  | SStr (s : string).

(** A document by value: what a JSON text denotes. *)
Inductive json : Type :=
  | JScalar (a : scalar)
  | JArr (elems : list json)
  | JObj (items : list (string * json)).

Abbreviation loc := nat (only parsing).

(** A Python value: a scalar, or a reference to a [list] or [dict] object. *)
Inductive value : Type :=
  | VScalar (a : scalar)
  | VRef (l : loc).

Inductive obj : Type :=
  | OList (elems : list value)
  | ODict (items : list (string * value)).

(** The heap: object [l] is the [l]-th entry; allocation appends. *)
Abbreviation heap := (list obj).

(** Code that reads and writes the heap and may raise.  The heap is kept
    when an exception propagates, as the writes done so far stay done. *)
Definition heapM (A : Type) : Type := heap → res A * heap.

Definition alloc (o : obj) : heap → value * heap :=
  λ h, (VRef (length h), h ++ [o]).

(** [json.load]: builds the objects of a document, children first.
    [load_elems] and [load_items] load the members of an array and of an
    object from left to right. *)
Definition load_elems (load : json → heap → value * heap)
    : list json → heap → list value * heap :=
  fix go (js : list json) (h : heap) : list value * heap :=
    match js with
    | [] => ([], h)
    | j :: js' =>
        let '(v, h1) := load j h in
        let '(vs, h2) := go js' h1 in
        (v :: vs, h2)
    end.

Definition load_items (load : json → heap → value * heap)
    : list (string * json) → heap → list (string * value) * heap :=
  fix go (kjs : list (string * json)) (h : heap) : list (string * value) * heap :=
    match kjs with
    | [] => ([], h)
    | (k, j) :: kjs' =>
        let '(v, h1) := load j h in
        let '(kvs, h2) := go kjs' h1 in
        ((k, v) :: kvs, h2)
    end.

Fixpoint json_load (j : json) (h : heap) : value * heap :=
  match j with
  | JScalar a => (VScalar a, h)
  | JArr elems =>
      let '(vs, h') := load_elems json_load elems h in
      alloc (OList vs) h'
  | JObj items =>
      let '(kvs, h') := load_items json_load items h in
      alloc (ODict kvs) h'
  end.

(** Reading a value back as a document, following at most [n] references
    in depth. *)
Fixpoint reify (n : nat) (h : heap) (v : value) : option json :=
  match v with
  | VScalar a => Some (JScalar a)
  | VRef l =>
      match n with
      | O => None
      | S n' =>
          match h !! l with
          | Some (OList vs) => JArr <$> mapM (reify n' h) vs
          | Some (ODict kvs) =>
              JObj <$> mapM (λ kv, pair kv.1 <$> reify n' h kv.2) kvs
          | None => None
          end
      end
  end.

(** [v] denotes the document [j] in [h]. *)
Definition Reifies (h : heap) (v : value) (j : json) : Prop :=
  ∃ n, reify n h v = Some j.

(** ** update_dict *)

(** [isinstance(value, collections.Mapping)]. *)
Definition is_mapping (h : heap) (v : value) : bool :=
  match v with
  | VRef l => match h !! l with Some (ODict _) => true | _ => false end
  | VScalar _ => false
  end.

(** [other.items()]: only a [dict] has the method.  The loop below runs
    over the items as they are when it starts; [update_dict_sim] shows that
    on separately loaded documents the dict of [other] is not written while
    the loop runs, so the live view Python iterates holds the same items. *)
Definition dict_items (other : value) (h : heap) : res (list (string * value)) :=
  match other with
  | VRef l =>
      match h !! l with
      | Some (ODict items) => Ok items
      | _ => Err AttributeError
      end
  | VScalar _ => Err AttributeError
  end.

(** [initial.get(key, {})]: the attribute is looked up first, then the
    default [{}] is built, then the lookup is made. *)
Definition get_or_empty (initial : value) (key : string) : heapM value := λ h,
  match initial with
  | VRef l =>
      match h !! l with
      | Some (ODict items) =>
          let '(empty, h') := alloc (ODict []) h in
          (Ok (default empty (dict_get items key)), h')
      | _ => (Err AttributeError, h)
      end
  | VScalar _ => (Err AttributeError, h)
  end.

(** [initial[key] = v] for a string [key]: a [list] refuses the index, a
    scalar has no item assignment. *)
Definition setitem (initial : value) (key : string) (v : value) : heapM unit := λ h,
  match initial with
  | VRef l =>
      match h !! l with
      | Some (ODict items) => (Ok (), <[l := ODict (dict_set items key v)]> h)
      | _ => (Err TypeError, h)
      end
  | VScalar _ => (Err TypeError, h)
  end.

(** The [for key, value in other.items()] loop; [self] is the recursive
    call.  It runs over the items [other] had when the loop started, and
    [other[key]] is the value of that item: this is what Python does as long
    as the dict of [other] is not written during the loop, which holds
    whenever [initial] does not reach [other] (see [dict_items]).  Every
    statement below about [update_dict] is about such arguments: documents
    that [json_load] built one after the other. *)
Fixpoint update_loop (self : value → value → heapM value) (initial : value)
    (items : list (string * value)) (h : heap) : res value * heap :=
  match items with
  | [] => (Ok initial, h)
  | (key, value) :: rest =>
      if is_mapping h value then
        match get_or_empty initial key h with
        | (Err e, h1) => (Err e, h1)
        | (Ok cur, h1) =>
            match self cur value h1 with
            | (Err e, h2) => (Err e, h2)
            | (Ok r, h2) =>
                match setitem initial key r h2 with
                | (Err e, h3) => (Err e, h3)
                | (Ok _, h3) => update_loop self initial rest h3
                end
            end
        end
      else
        match setitem initial key value h with
        | (Err e, h1) => (Err e, h1)
        | (Ok _, h1) => update_loop self initial rest h1
        end
  end.

(** [update_dict(initial, other)], with at most [fuel] nested calls. *)
Fixpoint update_dict (fuel : nat) (initial other : value) (h : heap)
    : res value * heap :=
  match fuel with
  | O => (Err RecursionError, h)
  | S fuel' =>
      match dict_items other h with
      | Err e => (Err e, h)
      | Ok items => update_loop (update_dict fuel') initial items h
      end
  end.

(** *** The same merge on documents held by value *)

Definition doc_get_or_empty (initial : json) (key : string) : res json :=
  match initial with
  | JObj items => Ok (default (JObj []) (dict_get items key))
  | _ => Err AttributeError
  end.

Definition doc_setitem (initial : json) (key : string) (v : json) : res json :=
  match initial with
  | JObj items => Ok (JObj (dict_set items key v))
  | _ => Err TypeError
  end.

Definition is_obj (j : json) : bool :=
  match j with JObj _ => true | _ => false end.

Definition merge_loop (self : json → json → res json)
    : json → list (string * json) → res json :=
  fix loop (initial : json) (items : list (string * json)) {struct items}
      : res json :=
    match items with
    | [] => Ok initial
    | (key, value) :: rest =>
        if is_obj value then
          cur ← doc_get_or_empty initial key;
          r ← self cur value;
          initial' ← doc_setitem initial key r;
          loop initial' rest
        else
          initial' ← doc_setitem initial key value;
          loop initial' rest
    end.

Fixpoint merge (initial other : json) {struct other} : res json :=
  match other with
  | JObj items => merge_loop (λ cur value, merge cur value) initial items
  | _ => Err AttributeError
  end.

Fixpoint depth (j : json) : nat :=
  match j with
  | JScalar _ => O
  | JArr elems => S (foldr (λ j n, depth j `max` n)%nat O elems)
  | JObj items => S (foldr (λ kj n, depth kj.2 `max` n)%nat O items)
  end.

(** Every [dict] of a document has pairwise different keys. *)
Fixpoint wf_json (j : json) : Prop :=
  match j with
  | JScalar _ => True
  | JArr elems => foldr (λ j P, wf_json j ∧ P) True elems
  | JObj items =>
      NoDup items.*1 ∧ foldr (λ kj P, wf_json kj.2 ∧ P) True items
  end.

(** [update_dict] run on two documents that [json.load] has just built. *)
Definition update_dict_on (fuel : nat) (initial other : json) (h : heap)
    : res value * heap :=
  let '(vi, h1) := json_load initial h in
  let '(vo, h2) := json_load other h1 in
  update_dict fuel vi vo h2.

(** The outcome [r] of a call, read in the heap [h] it left, is [out]: the
    same exception, or a reference to that document. *)
Definition yields (h : heap) (r : res value) (out : res json) : Prop :=
  match out with
  | Ok j => ∃ v, r = Ok v ∧ Reifies h v j
  | Err e => r = Err e
  end.

(** [update_dict(initial, other)] ends as [out], wherever the two documents
    are loaded and whenever the nesting of [other] fits the call depth. *)
Definition merges_to (initial other : json) (out : res json) : Prop :=
  ∀ h fuel, (depth other < fuel)%nat →
    yields (update_dict_on fuel initial other h).2
           (update_dict_on fuel initial other h).1 out.

(** Wherever [other] holds a non-empty mapping, [initial] holds a mapping or
    nothing at that key. *)
Fixpoint compatible (initial other : json) {struct other} : bool :=
  match other with
  | JObj [] => true
  | JObj items =>
      is_obj initial &&
      forallb (λ kv, if is_obj kv.2
                     then match doc_get_or_empty initial kv.1 with
                          | Ok cur => compatible cur kv.2
                          | Err _ => false
                          end
                     else true) items
  | _ => false
  end.

(** *** Heap layout invariants used by the proofs *)

(** [h'] holds what [h] holds at every location in [P]. *)
Definition agree (P : loc → Prop) (h h' : heap) : Prop :=
  ∀ l, P l → h' !! l = h !! l.

(** [v] denotes [j] in [h] and in every heap that agrees with [h] on [P]. *)
Definition RepOn (P : loc → Prop) (h : heap) (v : value) (j : json) : Prop :=
  ∀ h', agree P h h' → Reifies h' v j.

(** [Laid h j a b v]: the objects of [j] sit at the locations [a .. b-1] of
    [h] as [json_load] lays them out, with root [v]. *)
Inductive Laid (h : heap) : json → nat → nat → value → Prop :=
  | Laid_scalar a s : Laid h (JScalar s) a a (VScalar s)
  | Laid_arr a m js vs :
      LaidElems h js a m vs → h !! m = Some (OList vs) →
      Laid h (JArr js) a (S m) (VRef m)
  | Laid_obj a m kjs kvs :
      LaidItems h kjs a m kvs → h !! m = Some (ODict kvs) →
      Laid h (JObj kjs) a (S m) (VRef m)
with LaidElems (h : heap) : list json → nat → nat → list value → Prop :=
  | LaidElems_nil a : LaidElems h [] a a []
  | LaidElems_cons j js v vs a c b :
      Laid h j a c v → LaidElems h js c b vs →
      LaidElems h (j :: js) a b (v :: vs)
with LaidItems (h : heap)
    : list (string * json) → nat → nat → list (string * value) → Prop :=
  | LaidItems_nil a : LaidItems h [] a a []
  | LaidItems_cons k j kjs v kvs a c b :
      Laid h j a c v → LaidItems h kjs c b kvs →
      LaidItems h ((k, j) :: kjs) a b ((k, v) :: kvs).

Scheme Laid_mut := Induction for Laid Sort Prop
  with LaidElems_mut := Induction for LaidElems Sort Prop
  with LaidItems_mut := Induction for LaidItems Sort Prop.
Combined Scheme Laid_mutind from Laid_mut, LaidElems_mut, LaidItems_mut.

(** The items of the [dict] at [M] while [update_loop] runs on it.  Each
    item came with a block [lo .. hi-1] of locations of its own, below [M]
    ([hi = lo] for a key the loop added).  An item whose key is still
    [pending] is as [json_load] left it; every item is supported on its own
    block and on the region [Out], which the loop never writes. *)
Inductive Slots (h : heap) (pending : list string) (Out : loc → Prop) (M : nat)
    : nat → list (nat * nat) → list (string * value) → list (string * json) → Prop :=
  | Slots_nil a : (a ≤ M)%nat → Slots h pending Out M a [] [] []
  | Slots_cons a lo hi k v j bs kvs kjs :
      (a ≤ lo)%nat → (lo ≤ hi)%nat →
      RepOn (λ l, (l < length h)%nat ∧ ((lo ≤ l < hi)%nat ∨ Out l)) h v j →
      (k ∈ pending → Laid h j lo hi v) →
      Slots h pending Out M hi bs kvs kjs →
      Slots h pending Out M a ((lo, hi) :: bs) ((k, v) :: kvs) ((k, j) :: kjs).

(** The block of the item [d.get(key)] finds; the empty block at [M] when
    the key is absent. *)
Fixpoint block_of (M : nat) (kvs : list (string * value)) (bs : list (nat * nat))
    (key : string) : nat * nat :=
  match kvs, bs with
  | (k, _) :: kvs', b :: bs' =>
      if String.eqb k key then b else block_of M kvs' bs' key
  | _, _ => (M, M)
  end.

(** What a run of [update_dict] (or of its loop) from the heap [h] has to
    satisfy, the target being laid out over [a .. b-1]: it only allocates
    and writes inside the target's block, and it ends as the merge on
    documents [pure] does, the result being supported on the block and on
    [Out].  [deep] is what running out of call depth implies. *)
Definition sim_post (h : heap) (a b : nat) (Out : loc → Prop) (deep : Prop)
    (vi : value) (pure : res json) (r : res value) (h' : heap) : Prop :=
  (length h ≤ length h')%nat ∧
  agree (λ l, (l < length h)%nat ∧ ¬ (a ≤ l < b)%nat) h h' ∧
  ((r = Err RecursionError ∧ deep) ∨
   match pure with
   | Ok j => r = Ok vi ∧
       RepOn (λ l, (l < length h')%nat ∧ ((a ≤ l < b)%nat ∨ Out l)) h' vi j
   | Err e => r = Err e
   end).

Definition sim_at (fuel : nat) : Prop :=
  ∀ h t o a b c d vi vo r h',
    Laid h t a b vi → Laid h o c d vo → wf_json o →
    (b ≤ c ∨ d ≤ a)%nat → (b ≤ length h)%nat → (d ≤ length h)%nat →
    update_dict fuel vi vo h = (r, h') →
    sim_post h a b (λ l, (c ≤ l < d)%nat ∨ (length h ≤ l)%nat)
      (fuel ≤ depth o)%nat vi (merge t o) r h'.

(** [json_load] only appends, and leaves the document laid out over the
    locations it appended. *)
Definition loads_ok (j : json) : Prop :=
  ∀ h, ∃ os, (json_load j h).2 = h ++ os ∧
    Laid (h ++ os) j (length h) (length (h ++ os)) (json_load j h).1.

(** ** The locale registry and the merge-and-cache pipeline *)

(** What [open] and [json.load] make of a path. *)
Inductive file_read : Type :=
  | NoFile
  | Garbled
  | Parsed (j : json).

(** The process state [pull] works on: the object heap, the table of
    [functools.lru_cache] (keyed by the arguments as passed, [None] for an
    omitted [locale]), and the paths opened so far, most recent first. *)
Record state : Type := State {
  heap_of : heap;
  cache : gmap (string * option string) value;
  opened : list string;
}.

Definition init_state : state := State [] ∅ [].

(** What the module finds where it is installed: [PATH] (the [data]
    directory next to the module), [settings.SUPPORTED_LOCALES], and what
    reading each path gives. *)
Record installation : Type := Installation {
  PATH : string;
  SUPPORTED_LOCALES : gmap string (gmap string string);
  disk : string → file_read;
}.

Definition unsupported (locale : string) : exn :=
  UnsupportedLocale ("Locale " +:+ locale +:+ " is not supported").

Definition locale_info (env : installation) (locale : string) : res string :=
  let locale := lower locale in
  let supported := SUPPORTED_LOCALES env in
  match supported !! locale with
  | None => Err (unsupported locale)
  | Some info =>
      match info !! "name" with
      | Some name => Ok name
      | None => Err (KeyError "name")
      end
  end.

(** [<data-root>/<locale_name>/<file>] as [get_data] computes it. *)
Definition data_path (env : installation) (locale_name file : string) : string :=
  path_join (PATH env +:+ "/" +:+ locale_name) file.

(** What parsing a path directly gives. *)
Definition parse (env : installation) (file_path : string) : res json :=
  match disk env file_path with
  | NoFile => Err (FileNotFoundError file_path)
  | Garbled => Err (JSONDecodeError file_path)
  | Parsed j => Ok j
  end.

(** The inner [get_data(locale_name)] of [pull]. *)
Definition get_data (env : installation) (file locale_name : string) (s : state)
    : res value * state :=
  let file_path := data_path env locale_name file in
  let s := State (heap_of s) (cache s) (file_path :: opened s) in
  match parse env file_path with
  | Err e => (Err e, s)
  | Ok j =>
      let '(v, h) := json_load j (heap_of s) in
      (Ok v, State h (cache s) (opened s))
  end.

(** The body of [pull], run on a cache miss. *)
Definition pull_body (env : installation) (fuel : nat) (file locale : string)
    (s : state) : res value * state :=
  let locale := lower locale in
  match SUPPORTED_LOCALES env !! locale with
  | None => (Err (unsupported locale), s)
  | Some _ =>
      let master_locale := split_head "-" locale in
      match get_data env file master_locale s with
      | (Err e, s1) => (Err e, s1)
      | (Ok data, s1) =>
          if contains "-" locale then
            match get_data env file locale s1 with
            | (Err e, s2) => (Err e, s2)
            | (Ok other, s2) =>
                let '(r, h) := update_dict fuel data other (heap_of s2) in
                (r, State h (cache s2) (opened s2))
            end
          else (Ok data, s1)
      end
  end.

(** [pull] under [@functools.lru_cache(maxsize=None)]: a hit returns the
    stored reference; a miss runs the body and stores what it returns. *)
Definition pull (env : installation) (fuel : nat) (file : string)
    (locale : option string) (s : state) : res value * state :=
  match cache s !! (file, locale) with
  | Some v => (Ok v, s)
  | None =>
      match pull_body env fuel file (default "en" locale) s with
      | (Ok v, s') =>
          (Ok v, State (heap_of s') (<[(file, locale) := v]> (cache s')) (opened s'))
      | (Err e, s') => (Err e, s')
      end
  end.

(** The states a process gets to by calling [pull]. *)
Inductive reachable (env : installation) : state → Prop :=
  | reachable_init : reachable env init_state
  | reachable_pull s fuel file locale :
      reachable env s → reachable env (pull env fuel file locale s).2.

(** What [pull(file, locale)] is to return, on documents by value. *)
Definition pull_doc (env : installation) (file locale : string) : res json :=
  let locale := lower locale in
  match SUPPORTED_LOCALES env !! locale with
  | None => Err (unsupported locale)
  | Some _ =>
      base ← parse env (data_path env (split_head "-" locale) file);
      if contains "-" locale then
        region ← parse env (data_path env locale file);
        merge base region
      else Ok base
  end.

(** Every cache entry denotes the document its key asks for, and keeps
    denoting it whatever is allocated later. *)
Definition cache_ok (env : installation) (s : state) : Prop :=
  ∀ file locale v, cache s !! (file, locale) = Some v →
    ∃ j, pull_doc env file (default "en" locale) = Ok j ∧
         RepOn (λ l, (l < length (heap_of s))%nat) (heap_of s) v j.

(** The region document of [pull(file, locale)] nests deeper than the call
    depth [fuel] allows. *)
Definition too_deep (env : installation) (fuel : nat) (file locale : string) : Prop :=
  ∃ region, is_Some (SUPPORTED_LOCALES env !! lower locale) ∧
    contains "-" (lower locale) = true ∧
    parse env (data_path env (lower locale) file) = Ok region ∧
    (fuel ≤ depth region)%nat.

(** [json.load] never builds a [dict] with a repeated key. *)
Definition disk_wf (env : installation) : Prop :=
  ∀ file_path j, disk env file_path = Parsed j → wf_json j.

(** ** Sample documents and a sample installation *)

Definition jint (n : Z) : json := JScalar (SInt n).

(** [{"a": {"b": 1, "c": 2}}], [{"a": {"b": 9}}] and their merge. *)
Definition nested_target : json := JObj [("a", JObj [("b", jint 1); ("c", jint 2)])].
Definition nested_overrides : json := JObj [("a", JObj [("b", jint 9)])].
Definition nested_merged : json := JObj [("a", JObj [("b", jint 9); ("c", jint 2)])].

(** [{"a": 1}] and [{"a": {"b": 2}}]. *)
Definition scalar_target : json := JObj [("a", jint 1)].
Definition mapping_overrides : json := JObj [("a", JObj [("b", jint 2)])].


(** [{"k": 0, "a": 1}] and [{"k": 5, "a": {"b": 2}}]. *)
Definition two_key_target : json := JObj [("k", jint 0); ("a", jint 1)].
Definition two_key_overrides : json :=
  JObj [("k", jint 5); ("a", JObj [("b", jint 2)])].

(** [{"b": 1, "a": 2}] and [{"z": 3, "a": 4, "y": {"k": 5}}]. *)
Definition ordered_target : list (string * json) := [("b", jint 1); ("a", jint 2)].
Definition ordered_overrides : list (string * json) :=
  [("z", jint 3); ("a", jint 4); ("y", JObj [("k", jint 5)])].
Definition ordered_merged : list (string * json) :=
  [("b", jint 1); ("a", jint 4); ("z", jint 3); ("y", JObj [("k", jint 5)])].

(** An installation with the locales [en] and [en-gb] and one data file
    for each. *)
Definition sample_env : installation := {|
  PATH := "/site/mimesis/data";
  SUPPORTED_LOCALES :=
    {[ "en" := {[ "name" := "English" ]};
       "en-gb" := {[ "name" := "British English" ]} ]};
  disk := λ file_path,
    if String.eqb file_path "/site/mimesis/data/en/sample.json"
    then Parsed nested_target
    else if String.eqb file_path "/site/mimesis/data/en-gb/sample.json"
    then Parsed nested_overrides
    else NoFile;
|}.

(** The sample installation without the [en-gb] file. *)
Definition base_only_env : installation := {|
  PATH := "/site/mimesis/data";
  SUPPORTED_LOCALES := SUPPORTED_LOCALES sample_env;
  disk := λ file_path,
    if String.eqb file_path "/site/mimesis/data/en/sample.json"
    then Parsed nested_target
    else NoFile;
|}.

(** * Proofs *)

(** ** Sample evaluations *)

Example luhn_checksum_sample : luhn_checksum "7992739871" = Ok "3".
Proof. reflexivity. Qed.

Example check_gender_sample :
  check_gender 0 (GStr "M") = Ok "male" ∧ check_gender 1 (GInt 2) = Ok "female" ∧
  check_gender 1 (GStr "x") =
    Err (UnexpectedGender "Gender must be 0, 1, 2, 9, f, female, m, male.").
Proof. repeat split; vm_compute; reflexivity. Qed.

Example rsplit_last_sample :
  rsplit_last "/" "http://a/b/c.png" = "c.png" ∧ rsplit_last "/" "abc" = "abc" ∧
  rsplit_last "/" "a/" = EmptyString.
Proof. repeat split. Qed.

(** [update_dict] writes into the objects of its first argument: after the
    call on [{"a": {"b": 1, "c": 2}}] and [{"a": {"b": 9}}], loaded at 0-1 and
    2-3, object 0 holds the merged inner mapping. *)
Example update_dict_in_place :
  update_dict_on 2 nested_target nested_overrides [] =
    (Ok (VRef 1),
     [ODict [("b", VScalar (SInt 9)); ("c", VScalar (SInt 2))];
      ODict [("a", VRef 0)];
      ODict [("b", VScalar (SInt 9))];
      ODict [("a", VRef 2)];
      ODict []]).
Proof. reflexivity. Qed.

(** A [list] of [other] is shared, not copied: after merging
    [{"z": {"b": [2]}}] into [{"a": 1}], the new mapping at 4 refers to the
    list at 1, which [other] also holds. *)
Example update_dict_shares_lists :
  update_dict_on 3 scalar_target (JObj [("z", JObj [("b", JArr [jint 2])])]) [] =
    (Ok (VRef 0),
     [ODict [("a", VScalar (SInt 1)); ("z", VRef 4)];
      OList [VScalar (SInt 2)];
      ODict [("b", VRef 1)];
      ODict [("z", VRef 2)];
      ODict [("b", VRef 1)]]).
Proof. reflexivity. Qed.

(** [pull] of [en], then of [en-gb]: the cached [en] document stays at 0-1;
    the regional call loads a second copy at 2-3 and merges into that. *)
Example pull_base_then_region :
  let s1 := (pull sample_env 3 "sample.json" (Some "en") init_state).2 in
  let out := pull sample_env 3 "sample.json" (Some "en-gb") s1 in
  out.1 = Ok (VRef 3) ∧
  heap_of out.2 =
    [ODict [("b", VScalar (SInt 1)); ("c", VScalar (SInt 2))];
     ODict [("a", VRef 0)];
     ODict [("b", VScalar (SInt 9)); ("c", VScalar (SInt 2))];
     ODict [("a", VRef 2)];
     ODict [("b", VScalar (SInt 9))];
     ODict [("a", VRef 4)];
     ODict []] ∧
  cache out.2 !! ("sample.json", Some "en") = Some (VRef 1) ∧
  reify 2 (heap_of out.2) (VRef 1) = Some nested_target ∧
  reify 2 (heap_of out.2) (VRef 3) = Some nested_merged.
Proof. repeat split; vm_compute; reflexivity. Qed.

(** A file name that starts with ['/'] makes [os.path.join] drop the data
    directory. *)
Example data_path_absolute :
  data_path sample_env "en" "/tmp/sample.json" = "/tmp/sample.json".
Proof. reflexivity. Qed.

(** ** Documents, heaps and their denotation *)

Lemma json_ind' (P : json → Prop) :
  (∀ a, P (JScalar a)) →
  (∀ js, Forall P js → P (JArr js)) →
  (∀ kjs, Forall (λ kj, P kj.2) kjs → P (JObj kjs)) →
  ∀ j, P j.
Proof.
  intros Hs Ha Ho. fix IH 1. intros [a|js|kjs].
  - apply Hs.
  - apply Ha. induction js as [|j js IHjs]; constructor; [apply IH | exact IHjs].
  - apply Ho. induction kjs as [|[k j] kjs IHkjs]; constructor; [apply IH | exact IHkjs].
Qed.

Lemma reify_mono n m h v j :
  reify n h v = Some j → (n ≤ m)%nat → reify m h v = Some j.
Proof.
  revert m v j. induction n as [|n IH]; intros m [a|l] j Hr Hle; simpl in *; try done;
    try (by destruct m).
  destruct m as [|m]; [lia|]. simpl.
  destruct (h !! l) as [[vs|kvs]|]; [| |done].
  - apply fmap_Some in Hr as (js & Hjs & ->). apply fmap_Some. exists js. split; [|done].
    apply mapM_Some in Hjs. apply mapM_Some.
    eapply Forall2_impl; [exact Hjs|]. intros v j' Hv. apply IH; [done | lia].
  - apply fmap_Some in Hr as (js & Hjs & ->). apply fmap_Some. exists js. split; [|done].
    apply mapM_Some in Hjs. apply mapM_Some.
    eapply Forall2_impl; [exact Hjs|]. intros kv kj Hv. simpl in *.
    apply fmap_Some in Hv as (j' & Hj' & ->). apply fmap_Some. exists j'. split; [|done].
    apply IH; [done | lia].
Qed.

Lemma Reifies_det h v j1 j2 : Reifies h v j1 → Reifies h v j2 → j1 = j2.
Proof.
  intros [n1 H1] [n2 H2].
  apply (reify_mono _ (n1 `max` n2)) in H1; [|lia].
  apply (reify_mono _ (n1 `max` n2)) in H2; [|lia]. congruence.
Qed.

Lemma Reifies_scalar h a : Reifies h (VScalar a) (JScalar a).
Proof. by exists O. Qed.

Lemma Forall2_Reifies_fuel h (vs : list value) (js : list json) :
  Forall2 (Reifies h) vs js → ∃ n, Forall2 (λ v j, reify n h v = Some j) vs js.
Proof.
  induction 1 as [|v j vs js [n Hn] _ [m Hm]].
  - by exists O.
  - exists (n `max` m)%nat. constructor.
    + eapply reify_mono; [done | lia].
    + eapply Forall2_impl; [exact Hm|]. intros v' j' Hv'.
      eapply reify_mono; [exact Hv' | lia].
Qed.

Lemma Reifies_list h l vs js :
  h !! l = Some (OList vs) → Forall2 (Reifies h) vs js → Reifies h (VRef l) (JArr js).
Proof.
  intros Hl Hvs. apply Forall2_Reifies_fuel in Hvs as [n Hn].
  exists (S n). simpl. rewrite Hl. apply fmap_Some. exists js. split; [|done].
  by apply mapM_Some.
Qed.

Lemma Reifies_dict h l (kvs : list (string * value)) (kjs : list (string * json)) :
  h !! l = Some (ODict kvs) →
  Forall2 (λ kv kj, kv.1 = kj.1 ∧ Reifies h kv.2 kj.2) kvs kjs →
  Reifies h (VRef l) (JObj kjs).
Proof.
  intros Hl Hkvs.
  assert (∃ n, Forall2 (λ kv kj, pair kv.1 <$> reify n h kv.2 = Some kj) kvs kjs) as [n Hn].
  { clear Hl. induction Hkvs as [|[k v] [k' j] kvs kjs [Hk [n Hn]] _ [m Hm]]; simpl in *.
    - by exists O.
    - subst k'. exists (n `max` m)%nat. constructor; simpl.
      + erewrite reify_mono; [done | done | lia].
      + eapply Forall2_impl; [exact Hm|]. intros [k1 v1] kj Hv. simpl in *.
        apply fmap_Some in Hv as (j' & Hj' & ->).
        erewrite reify_mono; [done | done | lia]. }
  exists (S n). simpl. rewrite Hl. apply fmap_Some. exists kjs. split; [|done].
  by apply mapM_Some.
Qed.

(** *** [agree] and [RepOn] *)

Lemma agree_refl P h : agree P h h.
Proof. by intros l _. Qed.

Lemma agree_trans (P Q R : loc → Prop) h1 h2 h3 :
  agree P h1 h2 → agree Q h2 h3 → (∀ l, R l → P l ∧ Q l) → agree R h1 h3.
Proof.
  intros H12 H23 HR l Hl. destruct (HR l Hl). rewrite H23; [|done]. by apply H12.
Qed.

Lemma agree_weaken (P Q : loc → Prop) h h' :
  agree P h h' → (∀ l, Q l → P l) → agree Q h h'.
Proof. intros H HQP l Hl. apply H. auto. Qed.

Lemma agree_app P h os : (∀ l, P l → (l < length h)%nat) → agree P h (h ++ os).
Proof. intros HP l Hl. apply lookup_app_l. auto. Qed.

Lemma agree_insert P h l o : ¬ P l → agree P h (<[l := o]> h).
Proof.
  intros HP l' Hl'. apply list_lookup_insert_ne. intros ->. done.
Qed.

Lemma RepOn_Reifies P h v j : RepOn P h v j → Reifies h v j.
Proof. intros H. apply H, agree_refl. Qed.

Lemma RepOn_weaken (P Q : loc → Prop) h v j :
  RepOn P h v j → (∀ l, P l → Q l) → RepOn Q h v j.
Proof. intros H HPQ h' Hh'. apply H. eapply agree_weaken; eauto. Qed.

Lemma RepOn_frame (P Q : loc → Prop) h h' v j :
  RepOn P h v j → agree Q h h' → (∀ l, P l → Q l) → RepOn P h' v j.
Proof.
  intros H Hag HPQ h'' Hh''. apply H. intros l Hl.
  rewrite Hh''; [|done]. apply Hag. auto.
Qed.

Lemma RepOn_scalar P h a : RepOn P h (VScalar a) (JScalar a).
Proof. intros h' _. apply Reifies_scalar. Qed.

(** *** Layouts *)

Lemma Laid_bounds h :
  (∀ j a b v, Laid h j a b v → (a ≤ b ≤ length h)%nat ∨ (a = b)) ∧
  (∀ js a b vs, LaidElems h js a b vs → (a ≤ b ≤ length h)%nat ∨ (a = b)) ∧
  (∀ kjs a b kvs, LaidItems h kjs a b kvs → (a ≤ b ≤ length h)%nat ∨ (a = b)).
Proof.
  apply Laid_mutind; intros; try (right; reflexivity).
  - left. apply lookup_lt_Some in e. lia.
  - left. apply lookup_lt_Some in e. lia.
  - lia.
  - lia.
Qed.

Lemma Laid_le h j a b v : Laid h j a b v → (a ≤ b)%nat.
Proof. intros H. destruct (proj1 (Laid_bounds h) _ _ _ _ H); lia. Qed.

Lemma LaidElems_le h js a b vs : LaidElems h js a b vs → (a ≤ b)%nat.
Proof. intros H. destruct (proj1 (proj2 (Laid_bounds h)) _ _ _ _ H); lia. Qed.

Lemma LaidItems_le h kjs a b kvs : LaidItems h kjs a b kvs → (a ≤ b)%nat.
Proof. intros H. destruct (proj2 (proj2 (Laid_bounds h)) _ _ _ _ H); lia. Qed.

Lemma Laid_frame h h' :
  (∀ j a b v, Laid h j a b v → agree (λ l, (a ≤ l < b)%nat) h h' → Laid h' j a b v) ∧
  (∀ js a b vs, LaidElems h js a b vs →
     agree (λ l, (a ≤ l < b)%nat) h h' → LaidElems h' js a b vs) ∧
  (∀ kjs a b kvs, LaidItems h kjs a b kvs →
     agree (λ l, (a ≤ l < b)%nat) h h' → LaidItems h' kjs a b kvs).
Proof.
  apply Laid_mutind.
  - constructor.
  - intros a m js vs Hl IH Hm Hag. apply LaidElems_le in Hl as Hle. eapply Laid_arr.
    + apply IH. eapply agree_weaken; [done|]. simpl. lia.
    + rewrite Hag; [done | lia].
  - intros a m kjs kvs Hl IH Hm Hag. apply LaidItems_le in Hl as Hle. eapply Laid_obj.
    + apply IH. eapply agree_weaken; [done|]. simpl. lia.
    + rewrite Hag; [done | lia].
  - constructor.
  - intros j js v vs a c b H1 IH1 H2 IH2 Hag.
    apply Laid_le in H1 as ?. apply LaidElems_le in H2 as ?. econstructor.
    + apply IH1. eapply agree_weaken; [done|]. simpl. lia.
    + apply IH2. eapply agree_weaken; [done|]. simpl. lia.
  - constructor.
  - intros k j kjs v kvs a c b H1 IH1 H2 IH2 Hag.
    apply Laid_le in H1 as ?. apply LaidItems_le in H2 as ?. econstructor.
    + apply IH1. eapply agree_weaken; [done|]. simpl. lia.
    + apply IH2. eapply agree_weaken; [done|]. simpl. lia.
Qed.

Lemma Laid_RepOn h :
  (∀ j a b v, Laid h j a b v → RepOn (λ l, (a ≤ l < b)%nat) h v j) ∧
  (∀ js a b vs, LaidElems h js a b vs →
     Forall2 (RepOn (λ l, (a ≤ l < b)%nat) h) vs js) ∧
  (∀ kjs a b kvs, LaidItems h kjs a b kvs →
     Forall2 (λ kv kj, kv.1 = kj.1 ∧ RepOn (λ l, (a ≤ l < b)%nat) h kv.2 kj.2) kvs kjs).
Proof.
  apply Laid_mutind.
  - intros. apply RepOn_scalar.
  - intros a m js vs Hl IH Hm h' Hag. apply LaidElems_le in Hl as Hle.
    eapply Reifies_list.
    + rewrite Hag; [done | lia].
    + eapply Forall2_impl; [exact IH|]. intros v j Hv. apply Hv.
      eapply agree_weaken; [done|]. simpl. lia.
  - intros a m kjs kvs Hl IH Hm h' Hag. apply LaidItems_le in Hl as Hle.
    eapply Reifies_dict.
    + rewrite Hag; [done | lia].
    + eapply Forall2_impl; [exact IH|]. intros kv kj [Hk Hv]. split; [done|]. apply Hv.
      eapply agree_weaken; [done|]. simpl. lia.
  - constructor.
  - intros j js v vs a c b H1 IH1 H2 IH2.
    apply Laid_le in H1 as ?. apply LaidElems_le in H2 as ?. constructor.
    + eapply RepOn_weaken; [done|]. simpl. lia.
    + eapply Forall2_impl; [exact IH2|]. intros ???. eapply RepOn_weaken; [done|]. simpl. lia.
  - constructor.
  - intros k j kjs v kvs a c b H1 IH1 H2 IH2.
    apply Laid_le in H1 as ?. apply LaidItems_le in H2 as ?. constructor.
    + split; [done|]. eapply RepOn_weaken; [done|]. simpl. lia.
    + eapply Forall2_impl; [exact IH2|]. intros ?? [??]. split; [done|].
      eapply RepOn_weaken; [done|]. simpl. lia.
Qed.

Lemma agree_app_below (P : loc → Prop) (h : heap) os n :
  (n ≤ length h)%nat → (∀ l, P l → (l < n)%nat) → agree P h (h ++ os).
Proof. intros Hn HP. apply agree_app. intros l Hl. specialize (HP l Hl). lia. Qed.

Lemma Laid_app h os j a b v : Laid h j a b v → Laid (h ++ os) j a b v.
Proof.
  intros H. eapply (proj1 (Laid_frame h (h ++ os))); [done|].
  destruct (proj1 (Laid_bounds h) _ _ _ _ H) as [Hb| ->].
  - eapply agree_app_below; [reflexivity|]. simpl. lia.
  - intros l Hl. lia.
Qed.

Lemma LaidElems_app h os js a b vs : LaidElems h js a b vs → LaidElems (h ++ os) js a b vs.
Proof.
  intros H. eapply (proj1 (proj2 (Laid_frame h (h ++ os)))); [done|].
  destruct (proj1 (proj2 (Laid_bounds h)) _ _ _ _ H) as [Hb| ->].
  - eapply agree_app_below; [reflexivity|]. simpl. lia.
  - intros l Hl. lia.
Qed.

Lemma LaidItems_app h os kjs a b kvs :
  LaidItems h kjs a b kvs → LaidItems (h ++ os) kjs a b kvs.
Proof.
  intros H. eapply (proj2 (proj2 (Laid_frame h (h ++ os)))); [done|].
  destruct (proj2 (proj2 (Laid_bounds h)) _ _ _ _ H) as [Hb| ->].
  - eapply agree_app_below; [reflexivity|]. simpl. lia.
  - intros l Hl. lia.
Qed.

Lemma load_elems_ok js :
  Forall loads_ok js →
  ∀ h, ∃ os, (load_elems json_load js h).2 = h ++ os ∧
    LaidElems (h ++ os) js (length h) (length (h ++ os)) (load_elems json_load js h).1.
Proof.
  induction 1 as [|j js Hj _ IH]; intros h; simpl.
  - exists []. rewrite app_nil_r. split; [done | constructor].
  - destruct (Hj h) as (os1 & E1 & L1).
    destruct (json_load j h) as [v h1]. simpl in *. subst h1.
    destruct (IH (h ++ os1)) as (os2 & E2 & L2).
    destruct (load_elems json_load js (h ++ os1)) as [vs h2]. simpl in *. subst h2.
    exists (os1 ++ os2). rewrite app_assoc. split; [done|].
    econstructor; [|exact L2]. by apply Laid_app.
Qed.

Lemma load_items_ok kjs :
  Forall (λ kj, loads_ok kj.2) kjs →
  ∀ h, ∃ os, (load_items json_load kjs h).2 = h ++ os ∧
    LaidItems (h ++ os) kjs (length h) (length (h ++ os)) (load_items json_load kjs h).1.
Proof.
  induction 1 as [|[k j] kjs Hj _ IH]; intros h; simpl in *.
  - exists []. rewrite app_nil_r. split; [done | constructor].
  - destruct (Hj h) as (os1 & E1 & L1).
    destruct (json_load j h) as [v h1]. simpl in *. subst h1.
    destruct (IH (h ++ os1)) as (os2 & E2 & L2).
    destruct (load_items json_load kjs (h ++ os1)) as [kvs h2]. simpl in *. subst h2.
    exists (os1 ++ os2). rewrite app_assoc. split; [done|].
    econstructor; [|exact L2]. by apply Laid_app.
Qed.

Lemma json_load_ok j : loads_ok j.
Proof.
  induction j as [a|js IH|kjs IH] using json_ind'; intros h; simpl.
  - exists []. rewrite app_nil_r. split; [done | constructor].
  - destruct (load_elems_ok js IH h) as (os & E & L).
    destruct (load_elems json_load js h) as [vs h1]. simpl in *. subst h1.
    exists (os ++ [OList vs]). rewrite app_assoc. split; [done|].
    rewrite (length_app (h ++ os)). simpl. rewrite Nat.add_1_r.
    eapply Laid_arr; [by apply LaidElems_app|].
    by apply list_lookup_middle.
  - destruct (load_items_ok kjs IH h) as (os & E & L).
    destruct (load_items json_load kjs h) as [kvs h1]. simpl in *. subst h1.
    exists (os ++ [ODict kvs]). rewrite app_assoc. split; [done|].
    rewrite (length_app (h ++ os)). simpl. rewrite Nat.add_1_r.
    eapply Laid_obj; [by apply LaidItems_app|].
    by apply list_lookup_middle.
Qed.

Lemma json_load_Laid j h v h' :
  json_load j h = (v, h') →
  Laid h' j (length h) (length h') v ∧ (length h ≤ length h')%nat ∧
  agree (λ l, (l < length h)%nat) h h'.
Proof.
  intros E. destruct (json_load_ok j h) as (os & E1 & L). rewrite E in E1, L.
  simpl in *. subst h'. split; [done|]. split.
  - rewrite length_app. lia.
  - by apply agree_app.
Qed.

Lemma Laid_is_mapping h j a b v : Laid h j a b v → is_mapping h v = is_obj j.
Proof.
  destruct 1; simpl; [done|..];
    by match goal with H : _ !! _ = Some _ |- _ => rewrite H end.
Qed.

Lemma LaidItems_keys h kjs a b kvs : LaidItems h kjs a b kvs → kvs.*1 = kjs.*1.
Proof. induction 1; simpl; [done | by f_equal]. Qed.

Lemma LaidItems_bound h kjs a b kvs n :
  LaidItems h kjs a b kvs → (a ≤ n)%nat → (n ≤ length h)%nat → (b ≤ length h)%nat.
Proof.
  intros H ??. destruct (proj2 (proj2 (Laid_bounds h)) _ _ _ _ H); lia.
Qed.

(** *** Dictionaries *)

Lemma dict_get_None {V} (d : list (string * V)) key :
  dict_get d key = None ↔ key ∉ d.*1.
Proof.
  induction d as [|[k v] d IH]; simpl.
  - split; [intros _; apply not_elem_of_nil | done].
  - destruct (String.eqb_spec k key) as [->|Hne].
    + split; [done|]. intros []. left.
    + rewrite IH. rewrite not_elem_of_cons. naive_solver.
Qed.

Lemma dict_get_set_eq {V} (d : list (string * V)) key v :
  dict_get (dict_set d key v) key = Some v.
Proof.
  induction d as [|[k w] d IH]; simpl.
  - by rewrite String.eqb_refl.
  - destruct (String.eqb_spec k key) as [->|Hne]; simpl.
    + by rewrite String.eqb_refl.
    + by destruct (String.eqb_spec k key).
Qed.

Lemma dict_get_set_ne {V} (d : list (string * V)) key key' v :
  key ≠ key' → dict_get (dict_set d key v) key' = dict_get d key'.
Proof.
  intros Hne. induction d as [|[k w] d IH]; simpl.
  - by destruct (String.eqb_spec key key').
  - destruct (String.eqb_spec k key) as [->|Hk]; simpl.
    + by destruct (String.eqb_spec key key').
    + by rewrite IH.
Qed.

(** *** The loop invariant *)

Lemma Slots_of_LaidItems h pending (Out : loc → Prop) M kjs a kvs :
  LaidItems h kjs a M kvs → (M ≤ length h)%nat →
  ∃ bs, Slots h pending Out M a bs kvs kjs.
Proof.
  induction 1 as [a|k j kjs v kvs a c b H1 H2 IH]; intros HM.
  - exists []. by constructor.
  - destruct (IH HM) as [bs Hbs]. exists ((a, c) :: bs).
    apply Laid_le in H1 as ?. apply LaidItems_le in H2 as ?.
    constructor; [lia | lia | | done | done].
    eapply RepOn_weaken; [by apply Laid_RepOn|]. simpl. lia.
Qed.

Lemma Slots_le h pending Out M a bs kvs kjs :
  Slots h pending Out M a bs kvs kjs → (a ≤ M)%nat.
Proof. induction 1; lia. Qed.

Lemma Slots_block h pending Out M a bs kvs kjs key :
  Slots h pending Out M a bs kvs kjs →
  (a ≤ (block_of M kvs bs key).1 ≤ (block_of M kvs bs key).2)%nat ∧
  ((block_of M kvs bs key).2 ≤ M)%nat ∧
  match dict_get kvs key with
  | Some v => ∃ j, dict_get kjs key = Some j ∧
      (key ∈ pending → Laid h j (block_of M kvs bs key).1 (block_of M kvs bs key).2 v)
  | None => dict_get kjs key = None ∧ block_of M kvs bs key = (M, M)
  end.
Proof.
  induction 1 as [a Ha|a lo hi k v j bs kvs kjs Ha Hlo Hrep Hpend Hs IH]; simpl.
  - split; [lia|]. split; [lia|]. done.
  - apply Slots_le in Hs as ?.
    destruct (String.eqb_spec k key) as [->|Hne]; simpl.
    + split; [lia|]. split; [lia|]. eauto.
    + destruct IH as (? & ? & ?). split; [lia|]. done.
Qed.

Lemma Slots_frame h h' pending pending' (Out : loc → Prop) M a bs kvs kjs lo hi :
  Slots h pending Out M a bs kvs kjs →
  agree (λ l, (l < length h)%nat ∧ l ≠ M ∧ ¬ (lo ≤ l < hi)%nat) h h' →
  (length h ≤ length h')%nat →
  (hi ≤ a)%nat →
  (∀ l, Out l → l ≠ M ∧ ¬ (lo ≤ l < hi)%nat) →
  (∀ k, k ∈ pending' → k ∈ pending) →
  Slots h' pending' Out M a bs kvs kjs.
Proof.
  intros Hs Hag Hlen Hhi HOut Hpend. revert Hhi.
  induction Hs as [a Ha|a lo' hi' k v j bs kvs kjs Ha Hlo Hrep Hp Hs IH]; intros Hhi.
  - by constructor.
  - apply Slots_le in Hs as ?. constructor; [done | done | | | apply IH; lia].
    + eapply RepOn_weaken.
      * eapply RepOn_frame; [exact Hrep | exact Hag |]. simpl.
        intros l [? [?|?%HOut]]; [|naive_solver]. split; [done|]. lia.
      * simpl. intros l [? ?]. split; [lia | done].
    + intros Hk. specialize (Hp (Hpend _ Hk)).
      eapply (proj1 (Laid_frame h h')); [done|].
      destruct (proj1 (Laid_bounds h) _ _ _ _ Hp) as [?| ->]; [|intros l ?; lia].
      eapply agree_weaken; [exact Hag|]. simpl. lia.
Qed.

Lemma Slots_set h h' pending pending' (Out : loc → Prop) M a bs kvs kjs key v' j' :
  Slots h pending Out M a bs kvs kjs →
  agree (λ l, (l < length h)%nat ∧ l ≠ M ∧
              ¬ ((block_of M kvs bs key).1 ≤ l < (block_of M kvs bs key).2)%nat) h h' →
  (length h ≤ length h')%nat →
  RepOn (λ l, (l < length h')%nat ∧
              (((block_of M kvs bs key).1 ≤ l < (block_of M kvs bs key).2)%nat ∨ Out l))
        h' v' j' →
  (∀ l, Out l → ¬ (a ≤ l ≤ M)%nat) →
  (∀ k, k ∈ pending' → k ∈ pending ∧ k ≠ key) →
  ∃ bs', Slots h' pending' Out M a bs' (dict_set kvs key v') (dict_set kjs key j').
Proof.
  intros Hs. revert v' j'.
  induction Hs as [a Ha|a lo hi k v j bs kvs kjs Ha Hlo Hrep Hp Hs IH];
    intros v' j' Hag Hlen Hrep' HOut Hpend; simpl in *.
  - exists [(M, M)]. constructor; [done | done | | | by constructor].
    + done.
    + intros Hk. by destruct (Hpend _ Hk).
  - apply Slots_le in Hs as ?.
    destruct (String.eqb_spec k key) as [->|Hne]; simpl in *.
    + exists ((lo, hi) :: bs). constructor; [done | done | done | |].
      * intros Hk. by destruct (Hpend _ Hk).
      * eapply Slots_frame; [exact Hs | exact Hag | done | done | | naive_solver].
        intros l Hl%HOut. lia.
    + destruct (Slots_block _ _ _ _ _ _ _ _ key Hs) as (Hb1 & Hb2 & _).
      destruct (IH v' j') as [bs' Hbs']; [done | done | done | | done |].
      { intros l Hl%HOut. lia. }
      exists ((lo, hi) :: bs'). constructor; [done | done | | | done].
      * eapply RepOn_weaken.
        -- eapply RepOn_frame; [exact Hrep | exact Hag |]. simpl.
           intros l [? [?|Hl%HOut]]; (split; [done|]); lia.
        -- simpl. intros l [? ?]. split; [lia | done].
      * intros Hk. destruct (Hpend _ Hk) as [Hk' _]. specialize (Hp Hk').
        eapply (proj1 (Laid_frame h h')); [done|].
        destruct (proj1 (Laid_bounds h) _ _ _ _ Hp) as [?| ->]; [|intros l ?; lia].
        eapply agree_weaken; [exact Hag|]. simpl. lia.
Qed.

Lemma Slots_RepOn h pending (Out : loc → Prop) M a bs kvs kjs :
  Slots h pending Out M a bs kvs kjs →
  Forall2 (λ kv kj, kv.1 = kj.1 ∧
     RepOn (λ l, (l < length h)%nat ∧ ((a ≤ l ≤ M)%nat ∨ Out l)) h kv.2 kj.2) kvs kjs.
Proof.
  induction 1 as [a Ha|a lo hi k v j bs kvs kjs Ha Hlo Hrep Hp Hs IH].
  - constructor.
  - apply Slots_le in Hs as ?. constructor; simpl.
    + split; [done|]. eapply RepOn_weaken; [exact Hrep|]. simpl.
      intros l [? [?|?]]; (split; [done|]); [left; lia | by right].
    + eapply Forall2_impl; [exact IH|]. intros ?? [? Hr]. split; [done|].
      eapply RepOn_weaken; [exact Hr|]. simpl.
      intros l [? [?|?]]; (split; [done|]); [left; lia | by right].
Qed.

Lemma Slots_root h pending (Out : loc → Prop) M a bs kvs kjs :
  Slots h pending Out M a bs kvs kjs → h !! M = Some (ODict kvs) →
  RepOn (λ l, (l < length h)%nat ∧ ((a ≤ l ≤ M)%nat ∨ Out l)) h (VRef M) (JObj kjs).
Proof.
  intros Hs HM h' Hag. apply Slots_le in Hs as ?.
  apply lookup_lt_Some in HM as ?. eapply Reifies_dict.
  - rewrite Hag; [done|]. simpl. lia.
  - eapply Forall2_impl; [by eapply Slots_RepOn|]. simpl.
    intros ?? [? Hr]. split; [done|]. by apply Hr.
Qed.

Lemma wf_json_obj items :
  wf_json (JObj items) ↔ NoDup items.*1 ∧ Forall (λ kj, wf_json kj.2) items.
Proof.
  simpl. apply and_iff_compat_l. induction items as [|kj items IH]; simpl.
  - split; [constructor | done].
  - rewrite Forall_cons, IH. done.
Qed.

Lemma depth_item k j items : (k, j) ∈ items → (S (depth j) ≤ depth (JObj items))%nat.
Proof.
  simpl. induction items as [|kj items IH]; intros Hin; simpl.
  - by apply elem_of_nil in Hin.
  - apply elem_of_cons in Hin as [<-|Hin]; simpl; [lia|]. specialize (IH Hin). lia.
Qed.

(** *** [update_dict] on the heap against [merge] on documents *)

Lemma update_loop_nondict self h t a b vi restj c d rest :
  Laid h t a b vi → is_obj t = false → LaidItems h restj c d rest →
  update_loop self vi rest h =
    (match merge_loop (λ cur value, merge cur value) t restj with
     | Ok _ => Ok vi
     | Err e => Err e
     end, h) ∧
  (∀ j, merge_loop (λ cur value, merge cur value) t restj = Ok j → j = t).
Proof.
  intros Ht Hobj Hrest. destruct Hrest as [c|k j kjs v kvs c c1 d H1 H2]; simpl.
  - split; [done|]. by intros ? [= <-].
  - rewrite (Laid_is_mapping _ _ _ _ _ H1).
    destruct Ht as [a s|a m js vs He Hm|]; [| |done]; simpl.
    + by destruct (is_obj j).
    + rewrite Hm. by destruct (is_obj j).
Qed.

Lemma sim_post_step h h3 A B (Out : loc → Prop) (deep deep' : Prop) vi pure r h' :
  (length h ≤ length h3)%nat →
  agree (λ l, (l < length h)%nat ∧ ¬ (A ≤ l < B)%nat) h h3 →
  (deep' → deep) →
  sim_post h3 A B Out deep' vi pure r h' →
  sim_post h A B Out deep vi pure r h'.
Proof.
  intros Hlen Hag Hdeep (Hlen' & Hag' & Hres). split; [lia|]. split.
  - eapply agree_trans; [exact Hag | exact Hag' |]. simpl. lia.
  - destruct Hres as [[-> ?]|?]; [left; auto | by right].
Qed.

Lemma update_loop_dict fuel M A (Out : loc → Prop) :
  sim_at fuel →
  ∀ restj rest c d h bs kvs kjs r h',
    LaidItems h restj c d rest →
    NoDup restj.*1 → Forall (λ kj, wf_json kj.2) restj →
    h !! M = Some (ODict kvs) →
    Slots h restj.*1 Out M A bs kvs kjs →
    (S M ≤ c ∨ d ≤ A)%nat → (d ≤ length h)%nat →
    (∀ l, Out l → ¬ (A ≤ l ≤ M)%nat) →
    (∀ l, (c ≤ l < d)%nat → Out l) →
    (∀ l, (length h ≤ l)%nat → Out l) →
    update_loop (update_dict fuel) (VRef M) rest h = (r, h') →
    sim_post h A (S M) Out (∃ kj, kj ∈ restj ∧ (fuel ≤ depth kj.2)%nat) (VRef M)
      (merge_loop (λ cur value, merge cur value) (JObj kjs) restj) r h'.
Proof.
  intros IHf. induction restj as [|[k0 oj] restj IH];
    intros rest c d h bs kvs kjs r h' HL Hnd Hwf HM Hs Hdisj Hd HOut1 HOut2 HOut3 Hrun.
  - inversion HL; subst. simpl in Hrun. injection Hrun as <- <-.
    split; [lia|]. split; [apply agree_refl|]. right. simpl. split; [done|].
    eapply RepOn_weaken; [by eapply Slots_root|]. simpl.
    intros l [? [?|?]]; (split; [done|]); [left; lia | by right].
  - inversion HL as [|k j kjs' v rest' a c1 b H1 H2]; subst. simpl in Hrun.
    apply lookup_lt_Some in HM as HMlt.
    apply NoDup_cons in Hnd as [Hk0 Hnd]. apply Forall_cons in Hwf as [Hwf0 Hwf]. simpl in *.
    apply Laid_le in H1 as Hc1. apply LaidItems_le in H2 as Hc2.
    rewrite (Laid_is_mapping _ _ _ _ _ H1) in Hrun.
    destruct (Slots_block _ _ _ _ _ _ _ _ k0 Hs) as (Hb1 & Hb2 & Hget).
    assert (Hpend : ∀ k, k ∈ restj.*1 → k ∈ k0 :: restj.*1 ∧ k ≠ k0).
    { intros k Hk. split; [by right | by intros ->]. }
    destruct (is_obj oj) eqn:Hobj.
    + unfold get_or_empty in Hrun. rewrite HM in Hrun. simpl in Hrun.
      set (h0 := h ++ [ODict []]) in *.
      set (cur := default (VRef (length h)) (dict_get kvs k0)) in *.
      set (jc := default (JObj []) (dict_get kjs k0)).
      assert (Hlen0 : length h0 = S (length h)).
      { unfold h0. rewrite length_app. simpl. lia. }
      assert (∃ lo' hi', Laid h0 jc lo' hi' cur ∧ (hi' ≤ length h0)%nat ∧
                (hi' ≤ c ∨ d ≤ lo')%nat ∧ ¬ (lo' ≤ M < hi')%nat ∧
                (∀ l, (l < length h)%nat → l ≠ M →
                      ¬ ((block_of M kvs bs k0).1 ≤ l < (block_of M kvs bs k0).2)%nat →
                      ¬ (lo' ≤ l < hi')%nat) ∧
                (∀ l, (lo' ≤ l < hi')%nat →
                      ((block_of M kvs bs k0).1 ≤ l < (block_of M kvs bs k0).2)%nat ∨ Out l))
        as (lo' & hi' & HLc & Hhi' & Hdisj' & HM' & HR1 & HR2).
      { unfold cur, jc. destruct (dict_get kvs k0) as [v0|] eqn:Hg.
        - destruct Hget as (j0 & -> & HL0). simpl.
          exists (block_of M kvs bs k0).1, (block_of M kvs bs k0).2.
          split; [apply Laid_app, HL0; left|]. split; [lia|]. split; [lia|].
          split; [lia|]. split; [done | by left].
        - destruct Hget as [-> _]. simpl. exists (length h), (S (length h)).
          split.
          { eapply Laid_obj; [constructor|]. unfold h0. by apply list_lookup_middle. }
          split; [lia|]. split; [lia|]. split; [lia|]. split; [lia|].
          intros l Hl. right. apply HOut3. lia. }
      destruct (update_dict fuel cur v h0) as [r1 h2] eqn:Hrec.
      eapply (IHf h0 jc oj lo' hi' c c1) in Hrec;
        [|done | by apply Laid_app | done | lia | lia | lia].
      destruct Hrec as (Hlen2 & Hag2 & Hres).
      assert (Hag02 : agree (λ l, (l < length h)%nat ∧ ¬ (lo' ≤ l < hi')%nat) h h2).
      { eapply agree_trans;
          [apply (agree_app (λ l, (l < length h)%nat) h [ODict []]); auto
          | exact Hag2 |].
        simpl. lia. }
      fold jc. destruct Hres as [[-> Hdeep]|Hres].
      { injection Hrun as <- <-. split; [lia|]. split.
        - eapply agree_weaken; [exact Hag02|]. simpl. intros l [? ?].
          split; [done|]. apply HR1; lia.
        - left. split; [done|]. exists (k0, oj). split; [left | done]. }
      destruct (merge jc oj) as [r0|e] eqn:Hmerge; simpl.
      2:{ subst r1. injection Hrun as <- <-. split; [lia|]. split.
          - eapply agree_weaken; [exact Hag02|]. simpl. intros l [? ?].
            split; [done|]. apply HR1; lia.
          - by right. }
      destruct Hres as [-> Hrep].
      assert (HM2 : h2 !! M = Some (ODict kvs)).
      { rewrite Hag02; [done|]. simpl. lia. }
      rewrite HM2 in Hrun.
      set (h3 := <[M:=ODict (dict_set kvs k0 cur)]> h2) in *.
      assert (Hlen3 : length h3 = length h2) by apply length_insert.
      assert (Hag3 : agree (λ l, (l < length h)%nat ∧ l ≠ M ∧ ¬ (lo' ≤ l < hi')%nat) h h3).
      { eapply agree_trans;
          [exact Hag02 | apply (agree_insert (λ l, l ≠ M) h2 M); auto |].
        simpl. naive_solver. }
      destruct (Slots_set h h3 _ restj.*1 Out M A bs kvs kjs k0 cur r0 Hs)
        as [bs' Hs']; [| lia | | done | done |].
      { eapply agree_weaken; [exact Hag3|]. simpl. intros l (? & ? & ?). auto. }
      { eapply RepOn_weaken.
        - eapply RepOn_frame; [exact Hrep | apply (agree_insert _ h2 M) |]; simpl.
          2:{ intros l Hl. exact Hl. }
          intros [? [?|[?|?]]]; lia.
        - simpl. intros l [? [?|[?|?]]].
          + split; [lia|]. by apply HR2.
          + split; [lia|]. right. apply HOut2. lia.
          + split; [lia|]. right. apply HOut3. lia. }
      assert (HL3 : LaidItems h3 restj c1 d rest').
      { eapply (proj2 (proj2 (Laid_frame h h3))); [exact H2|].
        eapply agree_weaken; [exact Hag3|]. simpl. lia. }
      assert (HM3 : h3 !! M = Some (ODict (dict_set kvs k0 cur))).
      { apply list_lookup_insert_eq. lia. }
      eapply (IH rest' c1 d h3 bs' _ _ r h' HL3 Hnd Hwf HM3 Hs') in Hrun;
        [| lia | lia | done | intros l ?; apply HOut2; lia
         | intros l ?; apply HOut3; lia].
      eapply sim_post_step; [| |  | exact Hrun].
      * lia.
      * eapply agree_weaken; [exact Hag3|]. simpl. intros l [? ?].
        split; [done|]. split; [lia|]. apply HR1; lia.
      * intros (kj & ? & ?). exists kj. split; [by right | done].
    + unfold setitem in Hrun. rewrite HM in Hrun.
      set (h3 := <[M:=ODict (dict_set kvs k0 v)]> h) in *.
      assert (Hlen3 : length h3 = length h) by apply length_insert.
      assert (Hag3 : agree (λ l, l ≠ M) h h3).
      { apply (agree_insert _ h M). naive_solver. }
      destruct (Slots_set h h3 _ restj.*1 Out M A bs kvs kjs k0 v oj Hs)
        as [bs' Hs']; [| lia | | done | done |].
      { eapply agree_weaken; [exact Hag3|]. simpl. naive_solver. }
      { eapply RepOn_weaken.
        - eapply RepOn_frame; [by apply Laid_RepOn | exact Hag3 |]. simpl. lia.
        - simpl. intros l ?. split; [lia|]. right. apply HOut2. lia. }
      assert (HL3 : LaidItems h3 restj c1 d rest').
      { eapply (proj2 (proj2 (Laid_frame h h3))); [exact H2|].
        eapply agree_weaken; [exact Hag3|]. simpl. lia. }
      assert (HM3 : h3 !! M = Some (ODict (dict_set kvs k0 v))).
      { apply list_lookup_insert_eq. lia. }
      simpl in Hrun.
      eapply (IH rest' c1 d h3 bs' _ _ r h' HL3 Hnd Hwf HM3 Hs') in Hrun;
        [| lia | lia | done | intros l ?; apply HOut2; lia
         | intros l ?; apply HOut3; lia].
      eapply sim_post_step; [| |  | exact Hrun].
      * lia.
      * eapply agree_weaken; [exact Hag3|]. simpl. lia.
      * intros (kj & ? & ?). exists kj. split; [by right | done].
Qed.

Lemma update_dict_sim fuel : sim_at fuel.
Proof.
  induction fuel as [|fuel IHf];
    intros h t o a b c d vi vo r h' Ht Ho Hwf Hdisj Hb Hd Hrun; simpl in Hrun.
  { injection Hrun as <- <-. split; [lia|]. split; [apply agree_refl|].
    left. split; [done | lia]. }
  destruct Ho as [c s|c m js vs He Hm|c m ojs okvs Hitems Hm]; simpl in Hrun.
  - injection Hrun as <- <-. split; [lia|]. split; [apply agree_refl|]. by right.
  - rewrite Hm in Hrun. injection Hrun as <- <-.
    split; [lia|]. split; [apply agree_refl|]. by right.
  - rewrite Hm in Hrun. apply wf_json_obj in Hwf as [Hnd Hwf].
    apply LaidItems_le in Hitems as Hcm.
    simpl merge. destruct (is_obj t) eqn:Hobj.
    + destruct Ht as [| |a M tjs tkvs Htitems HM]; [done..|].
      destruct (Slots_of_LaidItems h ojs.*1
                  (λ l, (c ≤ l < S m)%nat ∨ (length h ≤ l)%nat) M tjs a tkvs Htitems)
        as [bs Hs]; [lia|].
      eapply update_loop_dict in Hrun;
        [| exact IHf | exact Hitems | done | done | exact HM | exact Hs
         | lia | lia | | |]; simpl.
      * eapply sim_post_step; [| apply agree_refl | | exact Hrun]; [lia|].
        intros ([k j] & Hin & Hfuel). apply depth_item in Hin. simpl in *. lia.
      * intros l. lia.
      * intros l ?. left. lia.
      * intros l ?. by right.
    + destruct (update_loop_nondict (update_dict fuel) h t a b vi ojs c m okvs Ht Hobj Hitems)
        as [Hloop Hsame].
      rewrite Hloop in Hrun. injection Hrun as <- <-.
      split; [lia|]. split; [apply agree_refl|]. right.
      destruct (merge_loop _ t ojs) as [j|e] eqn:Hm'; [|done].
      split; [done|]. rewrite (Hsame j eq_refl).
      eapply RepOn_weaken; [by apply Laid_RepOn|]. simpl. lia.
Qed.

(** [update_dict] on freshly loaded documents ends as [merge] does. *)
Lemma merges_to_merge initial other :
  wf_json other → merges_to initial other (merge initial other).
Proof.
  intros Hwf h fuel Hfuel. unfold update_dict_on.
  destruct (json_load initial h) as [vi h1] eqn:E1.
  destruct (json_load other h1) as [vo h2] eqn:E2.
  destruct (update_dict fuel vi vo h2) as [r h3] eqn:E3. simpl.
  apply json_load_Laid in E1 as (L1 & Hlen1 & Hag1).
  apply json_load_Laid in E2 as (L2 & Hlen2 & Hag2).
  eapply (proj1 (Laid_frame h1 h2)) in L1;
    [|eapply agree_weaken; [exact Hag2|]; simpl; lia].
  eapply update_dict_sim in E3; [| exact L1 | exact L2 | done | lia | lia | lia].
  destruct E3 as (_ & _ & [[_ ?]|Hres]); [lia|].
  unfold yields. destruct (merge initial other) as [j|e]; [|done].
  destruct Hres as [-> Hrep]. exists vi. split; [done|]. by eapply RepOn_Reifies.
Qed.

Lemma merges_to_det initial other out1 out2 :
  merges_to initial other out1 → merges_to initial other out2 → out1 = out2.
Proof.
  intros H1 H2. specialize (H1 [] (S (depth other)) ltac:(lia)).
  specialize (H2 [] (S (depth other)) ltac:(lia)). unfold yields in *.
  destruct out1 as [j1|e1], out2 as [j2|e2].
  - destruct H1 as (v1 & E1 & R1), H2 as (v2 & E2 & R2).
    rewrite E1 in E2. injection E2 as <-. f_equal. by eapply Reifies_det.
  - destruct H1 as (v1 & E1 & _). congruence.
  - destruct H2 as (v2 & E2 & _). congruence.
  - congruence.
Qed.

(** ** [merge] key by key *)

Lemma dict_get_Some_elem {V} (d : list (string * V)) key v :
  dict_get d key = Some v → (key, v) ∈ d.
Proof.
  induction d as [|[k w] d IH]; simpl; [done|].
  destruct (String.eqb_spec k key) as [->|Hne].
  - intros [= ->]. left.
  - intros H. right. auto.
Qed.

Lemma merge_loop_get self ti oi r :
  NoDup oi.*1 → merge_loop self (JObj ti) oi = Ok r →
  ∃ ri, r = JObj ri ∧ ∀ k,
    match dict_get oi k with
    | None => dict_get ri k = dict_get ti k
    | Some v =>
        if is_obj v
        then ∃ r', self (default (JObj []) (dict_get ti k)) v = Ok r' ∧
                   dict_get ri k = Some r'
        else dict_get ri k = Some v
    end.
Proof.
  revert ti. induction oi as [|[k0 v0] oi IH]; intros ti Hnd Hrun; simpl in *.
  - injection Hrun as <-. by exists ti.
  - apply NoDup_cons in Hnd as [Hk0 Hnd]. apply dict_get_None in Hk0.
    destruct (is_obj v0) eqn:Hobj.
    + destruct (self (default (JObj []) (dict_get ti k0)) v0) as [r0|e] eqn:Hself;
        [|done]. simpl in Hrun.
      destruct (IH _ Hnd Hrun) as (ri & -> & Hri). exists ri. split; [done|].
      intros k. specialize (Hri k). destruct (String.eqb_spec k0 k) as [<-|Hne].
      * rewrite Hobj. rewrite Hk0 in Hri. rewrite dict_get_set_eq in Hri. eauto.
      * by rewrite dict_get_set_ne in Hri.
    + destruct (IH _ Hnd Hrun) as (ri & -> & Hri). exists ri. split; [done|].
      intros k. specialize (Hri k). destruct (String.eqb_spec k0 k) as [<-|Hne].
      * rewrite Hobj. rewrite Hk0 in Hri. by rewrite dict_get_set_eq in Hri.
      * by rewrite dict_get_set_ne in Hri.
Qed.

Lemma merge_err t o e : merge t o = Err e → e = TypeError ∨ e = AttributeError.
Proof.
  revert t e. induction o as [a|js _|kjs IH] using json_ind'; intros t e; simpl;
    [intros [= <-]; auto..|].
  revert t. induction IH as [|[k0 v0] kjs Hv0 _ IHl]; intros t Hrun; simpl in *; [done|].
  destruct (is_obj v0).
  - destruct t as [| |ti]; simpl in Hrun; [injection Hrun as <-; auto..|].
    destruct (merge _ v0) as [r0|e0] eqn:Hs; simpl in Hrun.
    + eauto.
    + injection Hrun as <-. eauto.
  - destruct t as [| |ti]; simpl in Hrun; [injection Hrun as <-; auto..|]. eauto.
Qed.

(** [merge] returns exactly on [compatible] documents. *)
Lemma merge_loop_compatible (self : json → json → res json) ti oi :
  NoDup oi.*1 →
  Forall (λ kv, ∀ cur, compatible cur kv.2 = true ↔ ∃ r, self cur kv.2 = Ok r) oi →
  forallb (λ kv, if is_obj kv.2
                 then compatible (default (JObj []) (dict_get ti kv.1)) kv.2
                 else true) oi = true ↔
  ∃ r, merge_loop self (JObj ti) oi = Ok r.
Proof.
  intros Hnd Hall. revert ti.
  induction Hall as [|[k0 v0] oi Hv0 _ IH]; intros ti; simpl in *.
  - split; [eauto | done].
  - apply NoDup_cons in Hnd as [Hk0 Hnd]. specialize (IH Hnd).
    assert (Hsame : ∀ x,
      forallb (λ kv, if is_obj kv.2
                 then compatible (default (JObj []) (dict_get (dict_set ti k0 x) kv.1)) kv.2
                 else true) oi =
      forallb (λ kv, if is_obj kv.2
                 then compatible (default (JObj []) (dict_get ti kv.1)) kv.2
                 else true) oi).
    { intros x. clear IH Hnd. induction oi as [|[k v] oi IHoi]; simpl in *; [done|].
      apply not_elem_of_cons in Hk0 as [Hne Hk0]. rewrite IHoi by done.
      rewrite dict_get_set_ne by done. done. }
    rewrite andb_true_iff. destruct (is_obj v0).
    + rewrite Hv0. split.
      * intros [[r0 Hr0] Hrest]. rewrite Hr0. simpl. apply IH. by rewrite Hsame.
      * intros [r Hr]. destruct (self _ v0) as [r0|] eqn:Hr0; [|done]. simpl in Hr.
        split; [eauto|]. rewrite <-(Hsame r0). apply IH. eauto.
    + split.
      * intros [_ Hrest]. apply IH. by rewrite Hsame.
      * intros Hr. split; [done|]. rewrite <-(Hsame v0). by apply IH.
Qed.

Lemma merge_compatible t o :
  wf_json o → compatible t o = true ↔ ∃ r, merge t o = Ok r.
Proof.
  revert t. induction o as [a|js _|kjs IH] using json_ind'; intros t Hwf.
  - simpl. split; [done | by intros [? ?]].
  - simpl. split; [done | by intros [? ?]].
  - apply wf_json_obj in Hwf as [Hnd Hwf].
    destruct kjs as [|[k0 v0] kjs]; [simpl; split; eauto|].
    change (merge t (JObj ((k0, v0) :: kjs)))
      with (merge_loop (λ cur value, merge cur value) t ((k0, v0) :: kjs)).
    destruct t as [a|js|ti].
    + simpl. split; [done|]. intros [r Hr]. by destruct (is_obj v0).
    + simpl. split; [done|]. intros [r Hr]. by destruct (is_obj v0).
    + apply (merge_loop_compatible (λ cur value, merge cur value) ti ((k0, v0) :: kjs));
        [done|].
      apply Forall_forall. intros kj Hkj cur.
      rewrite Forall_forall in IH. rewrite Forall_forall in Hwf.
      apply IH; [done|]. by apply Hwf.
Qed.

(** ** The pipeline *)

Lemma parse_wf env file_path j : disk_wf env → parse env file_path = Ok j → wf_json j.
Proof.
  intros Hwf. unfold parse. destruct (disk env file_path) eqn:E; [done..|].
  intros [= <-]. by eapply Hwf.
Qed.

Lemma get_data_spec env file locale_name s r s' :
  get_data env file locale_name s = (r, s') →
  cache s' = cache s ∧
  opened s' = data_path env locale_name file :: opened s ∧
  match parse env (data_path env locale_name file) with
  | Ok j => ∃ v, r = Ok v ∧ json_load j (heap_of s) = (v, heap_of s')
  | Err e => r = Err e ∧ heap_of s' = heap_of s
  end.
Proof.
  unfold get_data. destruct (parse env _) as [j|e]; simpl.
  - destruct (json_load j (heap_of s)) as [v h] eqn:E. intros [= <- <-]. simpl. eauto.
  - by intros [= <- <-].
Qed.

Lemma pull_body_sound env fuel file locale s r s' :
  disk_wf env →
  pull_body env fuel file locale s = (r, s') →
  cache s' = cache s ∧
  (length (heap_of s) ≤ length (heap_of s'))%nat ∧
  agree (λ l, (l < length (heap_of s))%nat) (heap_of s) (heap_of s') ∧
  ((r = Err RecursionError ∧ too_deep env fuel file locale) ∨
   match pull_doc env file locale with
   | Ok j => ∃ v, r = Ok v ∧
       RepOn (λ l, (l < length (heap_of s'))%nat) (heap_of s') v j
   | Err e => r = Err e
   end).
Proof.
  intros Hwf. unfold pull_body, pull_doc, too_deep.
  destruct (SUPPORTED_LOCALES env !! lower locale) as [info|] eqn:Hsup.
  2:{ intros [= <- <-]. split; [done|]. split; [lia|]. split; [apply agree_refl|].
      by right. }
  destruct (get_data env file (split_head "-" (lower locale)) s) as [r1 s1] eqn:E1.
  apply get_data_spec in E1 as (Hc1 & _ & Hp1).
  destruct (parse env (data_path env (split_head "-" (lower locale)) file)) as [jb|e];
    simpl.
  2:{ destruct Hp1 as [-> Hh1]. intros [= <- <-]. rewrite Hh1.
      split; [done|]. split; [lia|]. split; [apply agree_refl|]. by right. }
  destruct Hp1 as (data & -> & Hl1).
  apply json_load_Laid in Hl1 as (L1 & Hlen1 & Hag1).
  destruct (contains "-" (lower locale)) eqn:Hdash.
  2:{ intros [= <- <-]. split; [done|]. split; [done|]. split; [done|]. right.
      exists data. split; [done|]. eapply RepOn_weaken; [by apply Laid_RepOn|].
      simpl. lia. }
  destruct (get_data env file (lower locale) s1) as [r2 s2] eqn:E2.
  apply get_data_spec in E2 as (Hc2 & _ & Hp2).
  destruct (parse env (data_path env (lower locale) file)) as [jr|e] eqn:Hpr; simpl.
  2:{ destruct Hp2 as [-> Hh2]. intros [= <- <-]. rewrite Hh2.
      split; [congruence|]. split; [done|]. split; [done|]. by right. }
  destruct Hp2 as (other & -> & Hl2).
  apply json_load_Laid in Hl2 as (L2 & Hlen2 & Hag2).
  destruct (update_dict fuel data other (heap_of s2)) as [r3 h3] eqn:E3.
  intros [= <- <-]. simpl.
  eapply (proj1 (Laid_frame (heap_of s1) (heap_of s2))) in L1;
    [|eapply agree_weaken; [exact Hag2|]; simpl; lia].
  eapply update_dict_sim in E3;
    [| exact L1 | exact L2 | by eapply parse_wf | lia | lia | lia].
  destruct E3 as (Hlen3 & Hag3 & Hres).
  split; [congruence|]. split; [lia|]. split.
  { eapply (agree_trans _ _ _ _ _ _ Hag1);
      [eapply (agree_trans _ _ (λ l, (l < length (heap_of s))%nat) _ _ _ Hag2 Hag3)|];
      simpl; [lia | done]. }
  destruct Hres as [[-> ?]|Hres]; [left; split; [done|]; exists jr; eauto|]. right.
  destruct (merge jb jr) as [j|e]; [|done].
  destruct Hres as [-> Hrep]. exists data. split; [done|].
  eapply RepOn_weaken; [exact Hrep|]. simpl. lia.
Qed.

Lemma pull_sound env fuel file locale s r s' :
  disk_wf env → cache_ok env s →
  pull env fuel file locale s = (r, s') →
  cache_ok env s' ∧
  ((r = Err RecursionError ∧ too_deep env fuel file (default "en" locale)) ∨
   yields (heap_of s') r (pull_doc env file (default "en" locale))).
Proof.
  intros Hwf Hok. unfold pull.
  destruct (cache s !! (file, locale)) as [v|] eqn:Hhit.
  { intros [= <- <-]. split; [done|]. right.
    destruct (Hok _ _ _ Hhit) as (j & -> & Hrep). exists v. split; [done|].
    by eapply RepOn_Reifies. }
  destruct (pull_body env fuel file (default "en" locale) s) as [r1 s1] eqn:E.
  apply pull_body_sound in E as (Hc & Hlen & Hag & Hres); [|done].
  assert (Hold : ∀ f l v, cache s !! (f, l) = Some v →
            ∃ j, pull_doc env f (default "en" l) = Ok j ∧
                 RepOn (λ l, (l < length (heap_of s1))%nat) (heap_of s1) v j).
  { intros f l v Hv. destruct (Hok _ _ _ Hv) as (j & Hj & Hrep). exists j.
    split; [done|]. eapply RepOn_weaken.
    - eapply RepOn_frame; [exact Hrep | exact Hag | done].
    - simpl. lia. }
  destruct r1 as [v|e]; intros [= <- <-].
  - destruct Hres as [[? _]|Hres]; [done|].
    destruct (pull_doc env file (default "en" locale)) as [j|e] eqn:Hdoc;
      [|done]. destruct Hres as (v' & [= <-] & Hrep). split.
    + intros f l w. simpl. rewrite Hc. intros Hw.
      apply lookup_insert_Some in Hw as [[[= <- <-] <-]|[Hne Hw]]; eauto.
    + right. exists v. split; [done|]. by eapply RepOn_Reifies.
  - split.
    + intros f l w. rewrite Hc. apply Hold.
    + destruct Hres as [?|Hres]; [by left|]. right.
      destruct (pull_doc env file (default "en" locale)) as [j|e'] eqn:Hdoc; [|done].
      by destruct Hres as (? & ? & _).
Qed.

Lemma reachable_cache_ok env s : disk_wf env → reachable env s → cache_ok env s.
Proof.
  intros Hwf. induction 1 as [|s fuel file locale _ IH].
  - intros f l v. simpl. by rewrite lookup_empty.
  - destruct (pull env fuel file locale s) as [r s'] eqn:E.
    by destruct (pull_sound _ _ _ _ _ _ _ Hwf IH E).
Qed.

(** * Properties of the module *)

(** ** luhn_checksum *)

Lemma int_of_char_digit c : is_digit c → int_of_char c = Ok (digit_val c).
Proof.
  unfold is_digit, int_of_char, digit_val. intros [H1 H2].
  apply N.leb_le in H1. apply N.leb_le in H2. by rewrite H1, H2.
Qed.

Lemma even_mod2 i : (i mod 2 =? 0)%nat = Nat.even i.
Proof.
  destruct (Nat.even i) eqn:E.
  - apply Nat.even_spec in E as [k ->]. apply Nat.eqb_eq.
    rewrite Nat.mul_comm. apply Nat.Div0.mod_mul.
  - apply Nat.eqb_neq. intros Hm.
    assert (Nat.even i = true); [|congruence].
    apply Nat.even_spec. exists (i / 2)%nat. by apply Nat.Div0.div_exact.
Qed.

#[local] Arguments Nat.modulo : simpl never.

Lemma luhn_loop_sum cs i check :
  Forall is_digit cs →
  luhn_loop cs i check =
    Ok (check + foldr Z.add 0 (imap (λ k, luhn_term (i + k)) (digit_val <$> cs))).
Proof.
  intros Hcs. revert i check. induction Hcs as [|c cs Hc _ IH]; intros i check; simpl.
  - f_equal. lia.
  - rewrite (int_of_char_digit c Hc). simpl. rewrite IH.
    rewrite even_mod2. unfold luhn_term at 2. rewrite Nat.add_0_r.
    rewrite (Z.mul_comm (digit_val c) 2). f_equal.
    rewrite (imap_ext ((λ k, luhn_term (i + k)) ∘ S) (λ k, luhn_term (S i + k)));
      [by rewrite Z.add_assoc|]. intros k d _. simpl. f_equal. lia.
Qed.

Lemma str_of_digit d : 0 ≤ d < 10 → str_of_int d = String (digit_char d) EmptyString.
Proof.
  intros Hd.
  assert (d = 0 ∨ d = 1 ∨ d = 2 ∨ d = 3 ∨ d = 4 ∨ d = 5 ∨ d = 6 ∨ d = 7 ∨ d = 8 ∨ d = 9)
    as Hcases by lia.
  repeat (destruct Hcases as [->|Hcases]; [reflexivity|]). by subst.
Qed.

Lemma luhn_zero_sum (f : nat → Z → Z) ds :
  (∀ i, f i 0 = 0) → Forall (λ d, d = 0) ds → foldr Z.add 0 (imap f ds) = 0.
Proof.
  intros Hf Hds. revert f Hf. induction Hds as [|d ds -> _ IH]; intros f Hf; simpl.
  - done.
  - rewrite Hf, IH; [done|]. intros i. apply Hf.
Qed.

(** C6: on a string of decimal digits [luhn_checksum] returns the one-digit
    string of [(sum * 9) mod 10], where [sum] adds, over the digits read
    from the least significant one, each digit at an even position doubled
    (less 9 when that exceeds 9) and each digit at an odd position as it is;
    ["7992739871"] gives ["3"], and a string of zeros gives ["0"]. *)
Theorem luhn_checksum_spec :
  (∀ num, Forall is_digit (String.list_ascii_of_string num) →
     let d := checksum_spec (digit_val <$> String.list_ascii_of_string num) in
     0 ≤ d < 10 ∧ luhn_checksum num = Ok (String (digit_char d) EmptyString)) ∧
  luhn_checksum "7992739871" = Ok "3" ∧
  (∀ num, Forall (λ c, c = "0"%char) (String.list_ascii_of_string num) →
     luhn_checksum num = Ok "0").
Proof.
  assert (Hgen : ∀ num, Forall is_digit (String.list_ascii_of_string num) →
     let d := checksum_spec (digit_val <$> String.list_ascii_of_string num) in
     0 ≤ d < 10 ∧ luhn_checksum num = Ok (String (digit_char d) EmptyString)).
  { intros num Hnum d.
    assert (Hd : 0 ≤ d < 10) by (apply Z.mod_pos_bound; lia).
    split; [done|]. unfold luhn_checksum.
    rewrite luhn_loop_sum by (by apply Forall_reverse). simpl.
    rewrite fmap_reverse. rewrite Z.add_0_l. fold (checksum_spec (digit_val <$> String.list_ascii_of_string num)).
    fold d. by rewrite str_of_digit. }
  split; [exact Hgen|]. split; [reflexivity|].
  intros num Hnum.
  assert (Hdig : Forall is_digit (String.list_ascii_of_string num)).
  { eapply Forall_impl; [exact Hnum|]. intros c ->. unfold is_digit. simpl. lia. }
  destruct (Hgen num Hdig) as [_ ->]. f_equal.
  assert (checksum_spec (digit_val <$> String.list_ascii_of_string num) = 0) as ->;
    [|reflexivity].
  unfold checksum_spec. rewrite luhn_zero_sum; [done | |].
  - intros i. unfold luhn_term. by destruct (Nat.even i).
  - apply Forall_reverse, Forall_fmap. eapply Forall_impl; [exact Hnum|].
    by intros c ->.
Qed.

Lemma luhn_checksum_spec_witness :
  Forall is_digit (String.list_ascii_of_string "7992739871") ∧
  luhn_checksum "7992739871" = Ok (String (digit_char 3) EmptyString).
Proof.
  split.
  - repeat constructor; unfold is_digit; simpl; lia.
  - apply (proj1 luhn_checksum_spec "7992739871").
    repeat constructor; unfold is_digit; simpl; lia.
Defined.

(** C10: the empty string raises nothing and gives ["0"]. *)
Theorem luhn_checksum_empty : luhn_checksum EmptyString = Ok "0".
Proof. reflexivity. Qed.

(** ** check_gender *)

Lemma choice_two rnd :
  choice rnd ["female"; "male"] = Ok "female" ∨ choice rnd ["female"; "male"] = Ok "male".
Proof.
  unfold choice. simpl length.
  pose proof (Nat.mod_upper_bound rnd 2 ltac:(lia)) as Hlt.
  destruct (rnd mod 2)%nat as [|[|n]]; [by left | by right | lia].
Qed.

(** [check_gender] on a token, once the draw [o] is made. *)
Lemma check_gender_token rnd g o :
  g ≠ GNone → choice rnd ["female"; "male"] = Ok o →
  check_gender rnd g =
    let token := lower (str_of_gender g) in
    if bool_decide (token ∈ ["0"; "1"; "2"; "9"; "f"; "female"; "m"; "male"])
    then match dict_get [("0", o); ("9", o); ("1", "male"); ("2", "female");
                         ("f", "female"); ("m", "male"); ("female", "female");
                         ("male", "male")] token with
         | Some g => Ok g
         | None => Err (KeyError token)
         end
    else Err (UnexpectedGender "Gender must be 0, 1, 2, 9, f, female, m, male.").
Proof.
  intros Hg Ho. unfold check_gender. rewrite Ho.
  destruct g as [|n|s]; [done|..]; simpl mbind;
    change (sorted (dict_keys _)) with ["0"; "1"; "2"; "9"; "f"; "female"; "m"; "male"];
    cbv zeta; by destruct (bool_decide _).
Qed.

(** C8: after [str] and [lower], the tokens ["1"], ["m"], ["male"] give
    ["male"] and ["2"], ["f"], ["female"] give ["female"]; ["0"], ["9"] and
    [None] give one of the two; any other token raises [UnexpectedGender]
    with the sorted list of the recognised tokens in its message. *)
Theorem check_gender_spec rnd :
  (check_gender rnd GNone = Ok "male" ∨ check_gender rnd GNone = Ok "female") ∧
  (∀ g, g ≠ GNone →
     let token := lower (str_of_gender g) in
     (token ∈ ["1"; "m"; "male"] → check_gender rnd g = Ok "male") ∧
     (token ∈ ["2"; "f"; "female"] → check_gender rnd g = Ok "female") ∧
     (token ∈ ["0"; "9"] →
        check_gender rnd g = Ok "male" ∨ check_gender rnd g = Ok "female") ∧
     (token ∉ ["0"; "9"; "1"; "2"; "f"; "m"; "female"; "male"] →
        check_gender rnd g =
          Err (UnexpectedGender "Gender must be 0, 1, 2, 9, f, female, m, male."))) ∧
  check_gender rnd (GStr "M") = Ok "male" ∧
  check_gender rnd (GStr "f") = Ok "female".
Proof.
  assert (Hnone : check_gender rnd GNone = Ok "male" ∨ check_gender rnd GNone = Ok "female").
  { unfold check_gender. destruct (choice_two rnd) as [-> | ->]; simpl; auto. }
  assert (Htok : ∀ g, g ≠ GNone →
     let token := lower (str_of_gender g) in
     (token ∈ ["1"; "m"; "male"] → check_gender rnd g = Ok "male") ∧
     (token ∈ ["2"; "f"; "female"] → check_gender rnd g = Ok "female") ∧
     (token ∈ ["0"; "9"] →
        check_gender rnd g = Ok "male" ∨ check_gender rnd g = Ok "female") ∧
     (token ∉ ["0"; "9"; "1"; "2"; "f"; "m"; "female"; "male"] →
        check_gender rnd g =
          Err (UnexpectedGender "Gender must be 0, 1, 2, 9, f, female, m, male."))).
  { intros g Hg token.
    assert (∃ o, choice rnd ["female"; "male"] = Ok o ∧ (o = "male" ∨ o = "female"))
      as (o & Ho & Ho').
    { destruct (choice_two rnd) as [H|H]; eauto. }
    rewrite (check_gender_token rnd g o Hg Ho). fold token. cbv zeta.
    repeat split.
    - intros Hin. repeat (apply elem_of_cons in Hin as [->|Hin]; [reflexivity|]).
      by apply elem_of_nil in Hin.
    - intros Hin. repeat (apply elem_of_cons in Hin as [->|Hin]; [reflexivity|]).
      by apply elem_of_nil in Hin.
    - intros Hin.
      repeat (apply elem_of_cons in Hin as [->|Hin]; [simpl; naive_solver|]).
      by apply elem_of_nil in Hin.
    - intros Hnin. rewrite bool_decide_eq_false_2; [done|].
      intros Hin. apply Hnin. set_solver. }
  split; [done|]. split; [exact Htok|]. split.
  - destruct (Htok (GStr "M") ltac:(done)) as (H1 & _). apply H1. set_solver.
  - destruct (Htok (GStr "f") ltac:(done)) as (_ & H2 & _). apply H2. set_solver.
Qed.

Lemma check_gender_spec_witness :
  GInt 1 ≠ GNone ∧ lower (str_of_gender (GInt 1)) ∈ ["1"; "m"; "male"] ∧
  check_gender 7 (GInt 1) = Ok "male".
Proof.
  split; [done|]. split; [left|].
  apply (proj1 (proj1 (proj2 (check_gender_spec 7)) (GInt 1) ltac:(done))). left.
Defined.

(** ** download_image *)

(** C9, at the default [url]: the test [url is not None] lets the empty
    string through, so a transfer of the empty URL is attempted and [None] is not
    what the call returns. *)
Theorem download_image_default_url urlretrieve save_path unverified_ctx w :
  let out := download_image urlretrieve url_default save_path unverified_ctx w in
  out.1 ≠ Ok None ∧
  transfers out.2 = (EmptyString, save_path +:+ EmptyString) :: transfers w.
Proof.
  unfold download_image, url_default. simpl.
  destruct (urlretrieve EmptyString (save_path +:+ EmptyString));
    destruct unverified_ctx; by simpl.
Qed.

(** What [download_image] does otherwise: no transfer and [None] for
    [url=None]; for a string, one transfer to [save_path] plus the text after
    the last ['/'], whose name is returned when the transfer succeeds. *)
Lemma download_image_cases urlretrieve save_path unverified_ctx w :
  (let out := download_image urlretrieve None save_path unverified_ctx w in
   out.1 = Ok None ∧ transfers out.2 = transfers w) ∧
  (∀ url, let out := download_image urlretrieve (Some url) save_path unverified_ctx w in
     transfers out.2 = (url, save_path +:+ rsplit_last "/" url) :: transfers w ∧
     (urlretrieve url (save_path +:+ rsplit_last "/" url) = None →
      out.1 = Ok (Some (rsplit_last "/" url)))).
Proof.
  unfold download_image. split.
  - by destruct unverified_ctx.
  - intros url. simpl. destruct (urlretrieve url _); destruct unverified_ctx; by simpl.
Qed.

(** ** Locale codes *)

Lemma lower_char_idemp c : lower_char (lower_char c) = lower_char c.
Proof. by destruct c as [[] [] [] [] [] [] [] []]. Qed.

Lemma lower_idemp s : lower (lower s) = lower s.
Proof. induction s as [|c s IH]; simpl; [done|]. by rewrite lower_char_idemp, IH. Qed.

Lemma lower_split_head sep s : lower s = s → lower (split_head sep s) = split_head sep s.
Proof.
  induction s as [|c s IH]; simpl; [done|]. intros [= Hc Hs].
  destruct (Ascii.eqb c sep); simpl; [done|]. by rewrite Hc, IH.
Qed.

Lemma contains_split_head sep s : contains sep (split_head sep s) = false.
Proof.
  induction s as [|c s IH]; simpl; [done|].
  destruct (Ascii.eqb c sep) eqn:E; simpl; [done|]. by rewrite E.
Qed.

Lemma split_head_id sep s : contains sep s = false → split_head sep s = s.
Proof.
  induction s as [|c s IH]; simpl; [done|].
  destruct (Ascii.eqb c sep); [done|]. intros H. by rewrite IH.
Qed.

Lemma locale_info_unsupported env locale :
  (∃ msg, locale_info env locale = Err (UnsupportedLocale msg)) ↔
  SUPPORTED_LOCALES env !! lower locale = None.
Proof.
  unfold locale_info. destruct (SUPPORTED_LOCALES env !! lower locale) as [info|].
  - split; [|done]. intros [msg H]. by destruct (info !! "name").
  - split; [done|]. intros _. by eexists.
Qed.

Lemma pull_doc_unsupported env file locale :
  (∃ msg, pull_doc env file locale = Err (UnsupportedLocale msg)) ↔
  SUPPORTED_LOCALES env !! lower locale = None.
Proof.
  unfold pull_doc. destruct (SUPPORTED_LOCALES env !! lower locale) as [info|].
  - split; [|done]. intros [msg H]. unfold parse in H.
    destruct (disk env (data_path env (split_head "-" (lower locale)) file));
      simpl in H; [done..|].
    destruct (contains "-" (lower locale)); [|done].
    destruct (disk env (data_path env (lower locale) file)); simpl in H; [done..|].
    apply merge_err in H as [?|?]; done.
  - split; [done|]. intros _. by eexists.
Qed.

(** C7: [locale_info] and [pull] look the lower-cased code up and raise
    [UnsupportedLocale] exactly when it is not in the table; ["EN"] and
    ["en"] resolve alike; a code missing from the table is refused. *)
Theorem locale_lookup_lowercased env :
  (∀ locale, locale_info env locale = locale_info env (lower locale)) ∧
  (∀ locale, (∃ msg, locale_info env locale = Err (UnsupportedLocale msg)) ↔
             SUPPORTED_LOCALES env !! lower locale = None) ∧
  locale_info env "EN" = locale_info env "en" ∧
  (SUPPORTED_LOCALES env !! "xx-impossible" = None →
     locale_info env "xx-impossible" = Err (unsupported "xx-impossible")) ∧
  (∀ s fuel file locale, disk_wf env → reachable env s →
     (∃ msg, (pull env fuel file locale s).1 = Err (UnsupportedLocale msg)) ↔
     SUPPORTED_LOCALES env !! lower (default "en" locale) = None).
Proof.
  split; [|split; [|split; [|split]]].
  - intros locale. unfold locale_info. by rewrite lower_idemp.
  - apply locale_info_unsupported.
  - reflexivity.
  - intros H. unfold locale_info.
    change (lower "xx-impossible") with "xx-impossible". cbv zeta. by rewrite H.
  - intros s fuel file locale Hwf Hs.
    destruct (pull env fuel file locale s) as [r s'] eqn:E. simpl.
    apply reachable_cache_ok in Hs; [|done].
    destruct (pull_sound _ _ _ _ _ _ _ Hwf Hs E) as [_ [[-> Hdeep]|Hy]].
    + destruct Hdeep as (region & [info Hinfo] & _). rewrite Hinfo.
      split; [by intros [? ?] | done].
    + rewrite <-(pull_doc_unsupported env file). unfold yields in Hy.
      destruct (pull_doc env file (default "en" locale)) as [j|e].
      * destruct Hy as (v & -> & _). split; by intros [? ?].
      * subst r. split; intros [msg [= ->]]; by eexists.
Qed.

(** ** pull *)

Lemma pull_heap_frame env fuel file locale s :
  disk_wf env →
  (length (heap_of s) ≤ length (heap_of (pull env fuel file locale s).2))%nat ∧
  agree (λ l, (l < length (heap_of s))%nat)
    (heap_of s) (heap_of (pull env fuel file locale s).2).
Proof.
  intros Hwf. unfold pull. destruct (cache s !! (file, locale)).
  { simpl. split; [lia | apply agree_refl]. }
  destruct (pull_body env fuel file (default "en" locale) s) as [r s1] eqn:E.
  apply pull_body_sound in E as (_ & Hlen & Hag & _); [|done].
  by destruct r.
Qed.

Lemma pull_doc_simple env file locale :
  is_Some (SUPPORTED_LOCALES env !! lower locale) →
  contains "-" (lower locale) = false →
  pull_doc env file locale = parse env (data_path env (lower locale) file).
Proof.
  intros [info Hinfo] Hdash. unfold pull_doc. rewrite Hinfo, Hdash.
  rewrite split_head_id by done. by destruct (parse env _).
Qed.

(** C1: computing [pull(file, "base-region")] writes to no object that
    existed before the call, and a later [pull(file, "base")] returns what
    parsing [<data-root>/base/file] gives: a reference to that very document,
    or the same exception. *)
Theorem pull_base_unaffected env fuel fuel' file locale s :
  disk_wf env → reachable env s →
  is_Some (SUPPORTED_LOCALES env !! lower locale) →
  contains "-" (lower locale) = true →
  let base := split_head "-" (lower locale) in
  is_Some (SUPPORTED_LOCALES env !! base) →
  let s1 := (pull env fuel file (Some locale) s).2 in
  agree (λ l, (l < length (heap_of s))%nat) (heap_of s) (heap_of s1) ∧
  yields (heap_of (pull env fuel' file (Some base) s1).2)
         (pull env fuel' file (Some base) s1).1
         (parse env (data_path env base file)).
Proof.
  intros Hwf Hs Hsup Hdash base Hbase s1. split; [by apply pull_heap_frame|].
  assert (Hbase_low : lower base = base) by apply lower_split_head, lower_idemp.
  assert (Hs1 : reachable env s1) by by constructor.
  apply reachable_cache_ok in Hs1; [|done].
  destruct (pull env fuel' file (Some base) s1) as [r2 s2] eqn:E2.
  destruct (pull_sound _ _ _ _ _ _ _ Hwf Hs1 E2) as [_ [[_ Hdeep]|Hy]]; simpl in *.
  - destruct Hdeep as (region & _ & Hd & _). rewrite Hbase_low in Hd.
    unfold base in Hd. by rewrite contains_split_head in Hd.
  - rewrite pull_doc_simple in Hy; rewrite Hbase_low in *; [done | done |].
    apply contains_split_head.
Qed.

Lemma append_assoc (a b c : string) : (a +:+ b) +:+ c = a +:+ b +:+ c.
Proof.
  induction a as [|x a IH]; [reflexivity|].
  change (String x ((a +:+ b) +:+ c) = String x (a +:+ b +:+ c)). by f_equal.
Qed.

(** For a file name that does not start with ['/'], under a directory name
    that does not end with one, the path is [PATH/locale_name/file]. *)
Lemma data_path_relative env locale_name file :
  startswith "/" file = false →
  endswith "/" (PATH env +:+ "/" +:+ locale_name) = false →
  data_path env locale_name file = PATH env +:+ "/" +:+ locale_name +:+ "/" +:+ file.
Proof.
  intros Hfile Hdir. unfold data_path, path_join. rewrite Hfile, Hdir.
  assert (String.eqb (PATH env +:+ "/" +:+ locale_name) EmptyString = false) as ->
    by by destruct (PATH env).
  simpl. by rewrite !append_assoc.
Qed.

(** C2: for a supported code without ['-'], [pull] returns what parsing
    [<data-root>/L/file] gives; for a supported code with ['-'] whose two
    files parse, it ends as [update_dict] does on the base document and the
    region document, that is as [merge] of the two.  The path is the one
    [get_data] builds from the lower-cased code, [PATH/L/file] for a relative
    file name. *)
Theorem pull_returns_document env fuel file locale s :
  disk_wf env → reachable env s →
  is_Some (SUPPORTED_LOCALES env !! lower locale) →
  let out := pull env fuel file (Some locale) s in
  (contains "-" (lower locale) = false →
     yields (heap_of out.2) out.1 (parse env (data_path env (lower locale) file))) ∧
  (contains "-" (lower locale) = true →
     ∀ base region,
       parse env (data_path env (split_head "-" (lower locale)) file) = Ok base →
       parse env (data_path env (lower locale) file) = Ok region →
       (depth region < fuel)%nat →
       merges_to base region (merge base region) ∧
       yields (heap_of out.2) out.1 (merge base region)) ∧
  (∀ locale_name,
     startswith "/" file = false →
     endswith "/" (PATH env +:+ "/" +:+ locale_name) = false →
     data_path env locale_name file =
       PATH env +:+ "/" +:+ locale_name +:+ "/" +:+ file).
Proof.
  intros Hwf Hs Hsup out. apply reachable_cache_ok in Hs; [|done].
  destruct (pull env fuel file (Some locale) s) as [r s'] eqn:E. subst out. simpl.
  destruct (pull_sound _ _ _ _ _ _ _ Hwf Hs E) as [_ Hres]. simpl in Hres.
  split; [|split].
  - intros Hdash. destruct Hres as [[_ Hdeep]|Hy].
    + destruct Hdeep as (region & _ & Hd & _). congruence.
    + by rewrite pull_doc_simple in Hy.
  - intros Hdash base region Hb Hr Hfuel. split.
    { apply merges_to_merge. by eapply parse_wf. }
    destruct Hres as [[_ Hdeep]|Hy].
    + destruct Hdeep as (region' & _ & _ & Hr' & Hd). rewrite Hr in Hr'.
      injection Hr' as <-. lia.
    + unfold pull_doc in Hy. destruct Hsup as [info Hinfo].
      by rewrite Hinfo, Hb, Hdash, Hr in Hy.
  - intros locale_name. apply data_path_relative.
Qed.

(** C3: after a call of [pull] has returned, a second call with the same
    arguments returns the same reference and changes nothing: no path is
    opened, no object allocated or written, whatever the call depth. *)
Theorem pull_memoized env fuel fuel' file locale s v s1 :
  pull env fuel file locale s = (Ok v, s1) →
  pull env fuel' file locale s1 = (Ok v, s1).
Proof.
  unfold pull. destruct (cache s !! (file, locale)) as [w|] eqn:Hhit.
  - intros [= <- <-]. by rewrite Hhit.
  - destruct (pull_body env fuel file (default "en" locale) s) as [[w|e] s'];
      [|done]. intros [= <- <-]. simpl. by rewrite lookup_insert_eq.
Qed.

(** ** update_dict *)

Lemma wf_nested_overrides : wf_json nested_overrides.
Proof.
  simpl. repeat split; apply NoDup_singleton.
Qed.

Lemma wf_mapping_overrides : wf_json mapping_overrides.
Proof.
  simpl. repeat split; apply NoDup_singleton.
Qed.

Lemma sample_disk_wf : disk_wf sample_env.
Proof.
  intros p j. cbn [disk sample_env].
  destruct (String.eqb p "/site/mimesis/data/en/sample.json").
  { intros [= <-]. simpl. repeat split;
      repeat (apply NoDup_cons; split; [set_solver|]); apply NoDup_nil_2. }
  destruct (String.eqb p "/site/mimesis/data/en-gb/sample.json"); [|done].
  intros [= <-]. apply wf_nested_overrides.
Qed.




Lemma compatible_obj ti oi :
  oi ≠ [] →
  compatible (JObj ti) (JObj oi) =
    forallb (λ kv, if is_obj kv.2
                   then compatible (default (JObj []) (dict_get ti kv.1)) kv.2
                   else true) oi.
Proof. by destruct oi. Qed.

Lemma compatible_false_at ti oi k tv m :
  dict_get ti k = Some tv → is_obj tv = false →
  dict_get oi k = Some (JObj m) → m ≠ [] →
  compatible (JObj ti) (JObj oi) = false.
Proof.
  intros Ht Htv Ho Hm. apply not_true_iff_false. intros Hc.
  apply dict_get_Some_elem in Ho as Hin.
  rewrite compatible_obj in Hc by (intros ->; by apply elem_of_nil in Hin).
  rewrite forallb_forall in Hc. apply list_elem_of_In in Hin.
  specialize (Hc _ Hin). simpl in Hc. rewrite Ht in Hc. simpl in Hc.
  destruct m; [done|]. by destruct tv.
Qed.

(** On loaded documents a run of [update_dict] ends as [merge] does unless
    it runs out of call depth. *)
Lemma update_dict_on_outcome fuel t o h :
  wf_json o →
  (update_dict_on fuel t o h).1 = Err RecursionError ∨
  yields (update_dict_on fuel t o h).2 (update_dict_on fuel t o h).1 (merge t o).
Proof.
  intros Hwf. unfold update_dict_on.
  destruct (json_load t h) as [vi h1] eqn:E1.
  destruct (json_load o h1) as [vo h2] eqn:E2.
  destruct (update_dict fuel vi vo h2) as [r h3] eqn:E3. simpl.
  apply json_load_Laid in E1 as (L1 & Hlen1 & Hag1).
  apply json_load_Laid in E2 as (L2 & Hlen2 & Hag2).
  eapply (proj1 (Laid_frame h1 h2)) in L1;
    [|eapply agree_weaken; [exact Hag2|]; simpl; lia].
  eapply update_dict_sim in E3; [| exact L1 | exact L2 | done | lia | lia | lia].
  destruct E3 as (_ & _ & [[-> _]|Hres]); [by left|]. right.
  unfold yields. destruct (merge t o) as [j|e]; [|done].
  destruct Hres as [-> Hrep]. exists vi. split; [done|]. by eapply RepOn_Reifies.
Qed.

(** Whenever an override value is a non-empty mapping and the target holds
    a value there that is not a mapping, the call raises, wherever the two
    documents are loaded and whatever the call depth. *)
Lemma update_dict_non_mapping_target ti oi k tv m fuel h :
  wf_json (JObj oi) →
  dict_get ti k = Some tv → is_obj tv = false →
  dict_get oi k = Some (JObj m) → m ≠ [] →
  ∃ e, (update_dict_on fuel (JObj ti) (JObj oi) h).1 = Err e ∧
       (e = TypeError ∨ e = AttributeError ∨ e = RecursionError).
Proof.
  intros Hwf Ht Htv Ho Hm.
  pose proof (compatible_false_at ti oi k tv m Ht Htv Ho Hm) as Hc.
  destruct (update_dict_on_outcome fuel (JObj ti) (JObj oi) h Hwf) as [Hrec|Hy].
  { exists RecursionError. auto. }
  destruct (merge (JObj ti) (JObj oi)) as [r|e] eqn:Hr.
  - assert (compatible (JObj ti) (JObj oi) = true); [|congruence].
    apply merge_compatible; eauto.
  - exists e. split; [exact Hy|]. apply merge_err in Hr. tauto.
Qed.

(** C5, where the code leaves the claim: on [{"a": 1}] and [{"a": {"b": 2}}]
    the recursive call gets the integer 1 as [initial], and [initial["b"] = 2]
    raises [TypeError]; the target still holds 1 under ["a"].  Wherever the
    two documents are loaded and whatever the call depth, the call raises
    and returns nothing.  What the loop wrote before it raises stays
    written: on [{"k": 0, "a": 1}] and [{"k": 5, "a": {"b": 2}}] the target
    holds 5 under ["k"] when [TypeError] is raised. *)
Theorem update_dict_no_replacement :
  update_dict_on 2 scalar_target mapping_overrides [] =
    (Err TypeError,
     [ODict [("a", VScalar (SInt 1))];
      ODict [("b", VScalar (SInt 2))];
      ODict [("a", VRef 1)];
      ODict []]) ∧
  (∀ fuel h, ∃ e,
     (update_dict_on fuel scalar_target mapping_overrides h).1 = Err e ∧
     (e = TypeError ∨ e = RecursionError)) ∧
  update_dict_on 2 two_key_target two_key_overrides [] =
    (Err TypeError,
     [ODict [("k", VScalar (SInt 5)); ("a", VScalar (SInt 1))];
      ODict [("b", VScalar (SInt 2))];
      ODict [("k", VScalar (SInt 5)); ("a", VRef 1)];
      ODict []]).
Proof.
  split; [reflexivity|]. split; [|reflexivity].
  intros fuel h.
  destruct (update_dict_on_outcome fuel scalar_target mapping_overrides h
              wf_mapping_overrides) as [Hrec|Hy].
  - exists RecursionError. auto.
  - exists TypeError. split; [exact Hy | auto].
Qed.

(** ** The pipeline on the sample installation *)

Lemma pull_base_unaffected_witness :
  let s1 := (pull sample_env 3 "sample.json" (Some "en-GB") init_state).2 in
  yields (heap_of (pull sample_env 0 "sample.json" (Some "en") s1).2)
         (pull sample_env 0 "sample.json" (Some "en") s1).1
         (Ok nested_target).
Proof.
  apply (pull_base_unaffected sample_env 3 0 "sample.json" "en-GB" init_state).
  - apply sample_disk_wf.
  - constructor.
  - vm_compute. by eexists.
  - reflexivity.
  - vm_compute. by eexists.
Defined.

Lemma pull_returns_document_witness :
  let out := pull sample_env 3 "sample.json" (Some "en-gb") init_state in
  yields (heap_of out.2) out.1 (Ok nested_merged).
Proof.
  apply (proj1 (proj2 (pull_returns_document sample_env 3 "sample.json" "en-gb"
                         init_state sample_disk_wf (reachable_init sample_env)
                         ltac:(vm_compute; by eexists)))
           eq_refl nested_target nested_overrides eq_refl eq_refl).
  simpl. lia.
Defined.

Lemma pull_memoized_witness :
  let out := pull sample_env 3 "sample.json" (Some "en-gb") init_state in
  out.1 = Ok (VRef 1) ∧
  pull sample_env 0 "sample.json" (Some "en-gb") out.2 = (Ok (VRef 1), out.2).
Proof.
  split; [by vm_compute|].
  apply (pull_memoized sample_env 3 0 "sample.json" (Some "en-gb") init_state).
  by vm_compute.
Defined.

Lemma locale_lookup_lowercased_witness :
  locale_info sample_env "xx-impossible" = Err (unsupported "xx-impossible") ∧
  ∃ msg, (pull sample_env 0 "sample.json" (Some "xx-impossible") init_state).1 =
         Err (UnsupportedLocale msg).
Proof.
  destruct (locale_lookup_lowercased sample_env) as (_ & _ & _ & Hinfo & Hpull).
  split; [apply Hinfo; by vm_compute|].
  apply (Hpull init_state 0%nat "sample.json" (Some "xx-impossible")
           sample_disk_wf (reachable_init sample_env)).
  by vm_compute.
Defined.

(** * Further properties *)

(** ** luhn_checksum *)

Lemma is_digit_dec c : is_digit c ∨ ¬ is_digit c.
Proof. unfold is_digit. lia. Qed.

Lemma int_of_char_non_digit c : ¬ is_digit c → int_of_char c = Err ValueError.
Proof.
  unfold is_digit, int_of_char. intros Hc.
  destruct (48 <=? N_of_ascii c)%N eqn:H1; [|done].
  destruct (N_of_ascii c <=? 57)%N eqn:H2; [|done].
  apply N.leb_le in H1. apply N.leb_le in H2. lia.
Qed.

Lemma luhn_loop_non_digit cs i check :
  ¬ Forall is_digit cs → luhn_loop cs i check = Err ValueError.
Proof.
  revert i check. induction cs as [|c cs IH]; intros i check Hcs; simpl.
  - destruct Hcs. constructor.
  - destruct (is_digit_dec c) as [Hc|Hc].
    + rewrite (int_of_char_digit c Hc). simpl. apply IH.
      intros Hall. apply Hcs. by constructor.
    + by rewrite (int_of_char_non_digit c Hc).
Qed.

(** X1: [luhn_checksum] raises [ValueError] exactly when some character of
    its argument is not a decimal digit. *)
Theorem luhn_checksum_value_error num :
  luhn_checksum num = Err ValueError ↔
  ¬ Forall is_digit (String.list_ascii_of_string num).
Proof.
  unfold luhn_checksum. split.
  - intros Herr Hall.
    rewrite luhn_loop_sum in Herr by (by apply Forall_reverse). done.
  - intros Hnot. rewrite luhn_loop_non_digit; [done|].
    intros Hall. apply Hnot. apply Forall_reverse in Hall.
    by rewrite reverse_involutive in Hall.
Qed.

(** X2: the digit returned complements the weighted digit sum of the loop to
    a multiple of ten. *)
Theorem luhn_checksum_complements num check :
  luhn_loop (reverse (String.list_ascii_of_string num)) 0%nat 0 = Ok check →
  ∃ d, 0 ≤ d ≤ 9 ∧
       luhn_checksum num = Ok (String (digit_char d) EmptyString) ∧
       (check + d) mod 10 = 0.
Proof.
  intros Hloop. exists (check * 9 mod 10).
  assert (0 ≤ check * 9 mod 10 < 10) as Hd by (apply Z.mod_pos_bound; lia).
  split; [lia|]. split.
  - unfold luhn_checksum. rewrite Hloop. simpl. by rewrite str_of_digit.
  - rewrite Z.add_mod_idemp_r by lia.
    replace (check + check * 9) with (check * 10) by lia.
    by apply Z.mod_mul.
Qed.

Lemma luhn_checksum_complements_witness :
  ∃ d, 0 ≤ d ≤ 9 ∧
       luhn_checksum "7992739871" = Ok (String (digit_char d) EmptyString) ∧
       (67 + d) mod 10 = 0.
Proof. apply (luhn_checksum_complements "7992739871" 67). reflexivity. Defined.

Lemma luhn_loop_app cs1 cs2 i check :
  luhn_loop (cs1 ++ cs2) i check =
    luhn_loop cs1 i check ≫= luhn_loop cs2 (i + length cs1)%nat.
Proof.
  revert i check. induction cs1 as [|c cs1 IH]; intros i check; simpl.
  - by rewrite Nat.add_0_r.
  - destruct (int_of_char c) as [sx|e]; simpl; [|done].
    rewrite IH. by replace (S i + length cs1)%nat with (i + S (length cs1))%nat by lia.
Qed.

(** X3: a zero written in front of the number changes nothing: the same
    digit is returned, or the same [ValueError] raised. *)
Theorem luhn_checksum_leading_zero num :
  luhn_checksum (String "0" num) = luhn_checksum num.
Proof.
  unfold luhn_checksum. simpl String.list_ascii_of_string.
  rewrite reverse_cons, luhn_loop_app.
  destruct (luhn_loop (reverse (String.list_ascii_of_string num)) 0%nat 0)
    as [check|e]; simpl; [|done].
  destruct (_ =? 0)%nat; simpl; by rewrite Z.add_0_r.
Qed.

(** ** check_gender *)

(** X4: whatever the argument and the draw, [check_gender] returns ["male"]
    or ["female"] or raises [UnexpectedGender]; the lookups [options[gender]]
    and [choice] never fail. *)
Theorem check_gender_outcomes rnd g :
  check_gender rnd g = Ok "male" ∨ check_gender rnd g = Ok "female" ∨
  check_gender rnd g =
    Err (UnexpectedGender "Gender must be 0, 1, 2, 9, f, female, m, male.").
Proof.
  assert (∃ o, choice rnd ["female"; "male"] = Ok o ∧ (o = "male" ∨ o = "female"))
    as (o & Ho & Ho').
  { destruct (choice_two rnd) as [H|H]; eauto. }
  assert (g = GNone ∨ g ≠ GNone) as [->|Hg] by (destruct g; auto).
  { unfold check_gender. rewrite Ho. simpl. naive_solver. }
  rewrite (check_gender_token rnd g o Hg Ho). cbv zeta.
  destruct (bool_decide _) eqn:Hin; [|auto].
  apply bool_decide_eq_true_1 in Hin.
  repeat (apply elem_of_cons in Hin as [->|Hin]; [simpl; naive_solver|]).
  by apply elem_of_nil in Hin.
Qed.

Lemma lower_string_of_uint u :
  lower (NilEmpty.string_of_uint u) = NilEmpty.string_of_uint u.
Proof. induction u; simpl; [done | by f_equal..]. Qed.

Lemma str_of_int_lower n : lower (str_of_int n) = str_of_int n.
Proof.
  unfold str_of_int, NilZero.string_of_int, NilZero.string_of_uint.
  destruct n as [|p|p]; simpl; [done|..];
    destruct (Pos.to_uint p) eqn:E; simpl; f_equal;
    rewrite ?lower_string_of_uint; done.
Qed.

Lemma str_of_int_parse n :
  NilZero.int_of_string (str_of_int n) = Some (Z.to_int n).
Proof.
  unfold str_of_int. apply NilZero.isi.
  - destruct n as [|p|p]; simpl; [done| |done].
    intros [= H]. by apply Unsigned.to_uint_nonnil in H.
  - destruct n as [|p|p]; simpl; [done..|].
    intros [= H]. by apply Unsigned.to_uint_nonnil in H.
Qed.

Lemma str_of_int_eq n m : str_of_int n = str_of_int m → n = m.
Proof.
  intros H. apply (f_equal NilZero.int_of_string) in H.
  rewrite !str_of_int_parse in H. injection H as H.
  apply (f_equal Z.of_int) in H. by rewrite !DecimalZ.of_to in H.
Qed.

Lemma str_of_int_not_word n s :
  NilZero.int_of_string s = None → str_of_int n ≠ s.
Proof. intros Hs <-. by rewrite str_of_int_parse in Hs. Qed.

(** X5: an [int] argument is accepted exactly when it is 0, 1, 2 or 9; every
    other integer, negative ones included, raises [UnexpectedGender]. *)
Theorem check_gender_int rnd n :
  check_gender rnd (GInt n) =
    Err (UnexpectedGender "Gender must be 0, 1, 2, 9, f, female, m, male.") ↔
  n ≠ 0 ∧ n ≠ 1 ∧ n ≠ 2 ∧ n ≠ 9.
Proof.
  assert (∃ o, choice rnd ["female"; "male"] = Ok o ∧ (o = "male" ∨ o = "female"))
    as (o & Ho & Ho').
  { destruct (choice_two rnd) as [H|H]; eauto. }
  rewrite (check_gender_token rnd (GInt n) o ltac:(done) Ho). cbv zeta.
  simpl str_of_gender. rewrite str_of_int_lower. split.
  - intros Herr. repeat split; intros ->; simpl in Herr; naive_solver.
  - intros (H0 & H1 & H2 & H9). rewrite bool_decide_eq_false_2; [done|].
    intros Hin.
    repeat (apply elem_of_cons in Hin as [Hin|Hin];
            [first [ by apply (str_of_int_eq n 0) in Hin
                   | by apply (str_of_int_eq n 1) in Hin
                   | by apply (str_of_int_eq n 2) in Hin
                   | by apply (str_of_int_eq n 9) in Hin
                   | by apply str_of_int_not_word in Hin ]|]).
    by apply elem_of_nil in Hin.
Qed.

(** ** update_dict *)

(** X6: on two loaded documents [update_dict] returns only when [other] is
    a mapping, and it works in place: what it returns is the very object
    passed as [initial], which now denotes the merged document. *)
Theorem update_dict_returns_initial fuel t o h vi h1 vo h2 r h3 :
  wf_json o →
  json_load t h = (vi, h1) → json_load o h1 = (vo, h2) →
  update_dict fuel vi vo h2 = (Ok r, h3) →
  r = vi ∧ is_obj o = true ∧ ∃ j, merge t o = Ok j ∧ Reifies h3 vi j.
Proof.
  intros Hwf E1 E2 E3.
  apply json_load_Laid in E1 as (L1 & Hlen1 & Hag1).
  apply json_load_Laid in E2 as (L2 & Hlen2 & Hag2).
  eapply (proj1 (Laid_frame h1 h2)) in L1;
    [|eapply agree_weaken; [exact Hag2|]; simpl; lia].
  eapply update_dict_sim in E3; [| exact L1 | exact L2 | done | lia | lia | lia].
  destruct E3 as (_ & _ & [[? _]|Hres]); [done|].
  destruct (merge t o) as [j|e] eqn:Hm; [|done].
  destruct Hres as [[= ->] Hrep]. split; [done|]. split.
  - destruct o; simpl in Hm; done.
  - exists j. split; [done|]. by eapply RepOn_Reifies.
Qed.

Lemma update_dict_returns_initial_witness :
  VRef 1 = VRef 1 ∧ is_obj nested_overrides = true ∧
  ∃ j, merge nested_target nested_overrides = Ok j ∧
       Reifies (update_dict_on 2 nested_target nested_overrides []).2 (VRef 1) j.
Proof.
  apply (update_dict_returns_initial 2 nested_target nested_overrides []
           (VRef 1) (json_load nested_target []).2
           (VRef 3) (json_load nested_overrides (json_load nested_target []).2).2
           (VRef 1) (update_dict_on 2 nested_target nested_overrides []).2).
  - apply wf_nested_overrides.
  - reflexivity.
  - reflexivity.
  - reflexivity.
Defined.

(** X7: on two loaded documents [update_dict] never writes to [other] nor to
    any object that existed before the two were loaded, whether it returns
    or raises: afterwards [other] still denotes its document. *)
Theorem update_dict_leaves_other fuel t o h vi h1 vo h2 r h3 :
  wf_json o →
  json_load t h = (vi, h1) → json_load o h1 = (vo, h2) →
  update_dict fuel vi vo h2 = (r, h3) →
  Reifies h3 vo o ∧ agree (λ l, (l < length h)%nat) h h3.
Proof.
  intros Hwf E1 E2 E3.
  apply json_load_Laid in E1 as (L1 & Hlen1 & Hag1).
  apply json_load_Laid in E2 as (L2 & Hlen2 & Hag2).
  eapply (proj1 (Laid_frame h1 h2)) in L1;
    [|eapply agree_weaken; [exact Hag2|]; simpl; lia].
  eapply update_dict_sim in E3; [| exact L1 | exact L2 | done | lia | lia | lia].
  destruct E3 as (Hlen3 & Hag3 & _). split.
  - eapply RepOn_Reifies. eapply RepOn_frame; [by apply Laid_RepOn | exact Hag3 |].
    simpl. lia.
  - eapply (agree_trans _ _ _ _ _ _ Hag1);
      [eapply (agree_trans _ _ (λ l, (l < length h)%nat) _ _ _ Hag2 Hag3)|];
      simpl; [lia | done].
Qed.

Lemma update_dict_leaves_other_witness :
  Reifies (update_dict_on 2 scalar_target mapping_overrides []).2 (VRef 2)
    mapping_overrides.
Proof.
  apply (update_dict_leaves_other 2 scalar_target mapping_overrides []
           (VRef 0) [ODict [("a", VScalar (SInt 1))]]
           (VRef 2) [ODict [("a", VScalar (SInt 1))]; ODict [("b", VScalar (SInt 2))];
                     ODict [("a", VRef 1)]]
           (update_dict_on 2 scalar_target mapping_overrides []).1
           (update_dict_on 2 scalar_target mapping_overrides []).2).
  - apply wf_mapping_overrides.
  - reflexivity.
  - reflexivity.
  - reflexivity.
Defined.

Lemma dict_set_keys {V} (d : list (string * V)) key v :
  (dict_set d key v).*1 = if decide (key ∈ d.*1) then d.*1 else d.*1 ++ [key].
Proof.
  induction d as [|[k w] d IH]; csimpl.
  - done.
  - destruct (String.eqb_spec k key) as [->|Hne]; csimpl.
    + by rewrite decide_True by left.
    + rewrite IH. destruct (decide (key ∈ d.*1)) as [Hin|Hin].
      * by rewrite decide_True by by right.
      * rewrite decide_False; [done|]. rewrite not_elem_of_cons. naive_solver.
Qed.

Lemma filter_iff_on {A} (P Q : A → Prop) `{!∀ x, Decision (P x)}
    `{!∀ x, Decision (Q x)} (l : list A) :
  Forall (λ x, P x ↔ Q x) l → filter P l = filter Q l.
Proof.
  induction 1 as [|x l Hx _ IH]; [done|].
  destruct (decide (P x)) as [HP|HP].
  - rewrite !filter_cons_True by naive_solver. by f_equal.
  - rewrite !filter_cons_False by naive_solver. done.
Qed.

Lemma merge_loop_keys self ti oi ri :
  NoDup oi.*1 → merge_loop self (JObj ti) oi = Ok (JObj ri) →
  ri.*1 = ti.*1 ++ filter (λ k, k ∉ ti.*1) oi.*1.
Proof.
  revert ti. induction oi as [|[k0 v0] oi IH]; intros ti Hnd Hrun; simpl in *.
  - injection Hrun as <-. by rewrite app_nil_r.
  - apply NoDup_cons in Hnd as [Hk0 Hnd].
    assert (∃ x, merge_loop self (JObj (dict_set ti k0 x)) oi = Ok (JObj ri))
      as [x Hx].
    { destruct (is_obj v0); [|eauto].
      destruct (self _ v0) as [r0|e]; simpl in Hrun; [eauto | done]. }
    rewrite (IH _ Hnd Hx), dict_set_keys.
    destruct (decide (k0 ∈ ti.*1)) as [Hin|Hin].
    + by rewrite filter_cons_False by naive_solver.
    + rewrite filter_cons_True by done. rewrite <-app_assoc. simpl. do 2 f_equal.
      apply filter_iff_on. apply Forall_forall. intros k Hk.
      split.
      * intros Hnin Hin'. apply Hnin, elem_of_app. by left.
      * intros Hnin Hin'. apply elem_of_app in Hin' as [?|Hin']; [done|].
        apply elem_of_cons in Hin' as [->|Hin']; [done|].
        by apply elem_of_nil in Hin'.
Qed.

(** X8: [update_dict] removes no key and moves none: the keys of the result
    are the keys of the target in their order, followed by the keys only
    the overrides have, in the overrides' order. *)
Theorem update_dict_keys ti oi ri :
  wf_json (JObj oi) → merges_to (JObj ti) (JObj oi) (Ok (JObj ri)) →
  dict_keys ri = dict_keys ti ++ filter (λ k, k ∉ dict_keys ti) (dict_keys oi).
Proof.
  intros Hwf Hm.
  pose proof (merges_to_det _ _ _ _ Hm (merges_to_merge _ _ Hwf)) as Hr.
  apply wf_json_obj in Hwf as [Hnd _]. symmetry in Hr.
  by apply merge_loop_keys in Hr.
Qed.

Lemma wf_ordered_overrides : wf_json (JObj ordered_overrides).
Proof.
  simpl. repeat split; repeat (apply NoDup_cons; split; [set_solver|]);
    apply NoDup_nil_2.
Qed.

Lemma update_dict_keys_witness :
  wf_json (JObj ordered_overrides) ∧
  merges_to (JObj ordered_target) (JObj ordered_overrides) (Ok (JObj ordered_merged)) ∧
  dict_keys ordered_merged = ["b"; "a"; "z"; "y"].
Proof.
  split; [apply wf_ordered_overrides|]. split.
  - apply (merges_to_merge (JObj ordered_target) (JObj ordered_overrides)
             wf_ordered_overrides).
  - apply (update_dict_keys ordered_target ordered_overrides ordered_merged).
    + apply wf_ordered_overrides.
    + apply (merges_to_merge (JObj ordered_target) (JObj ordered_overrides)
               wf_ordered_overrides).
Defined.

Lemma dict_set_same {V} (d : list (string * V)) key v :
  dict_get d key = Some v → dict_set d key v = d.
Proof.
  induction d as [|[k w] d IH]; simpl; [done|].
  destruct (String.eqb_spec k key) as [->|Hne].
  - by intros [= ->].
  - intros H. by rewrite IH.
Qed.

Lemma dict_get_elem {V} (d : list (string * V)) key v :
  NoDup d.*1 → (key, v) ∈ d → dict_get d key = Some v.
Proof.
  induction d as [|[k w] d IH]; csimpl; intros Hnd Hin.
  - by apply elem_of_nil in Hin.
  - apply NoDup_cons in Hnd as [Hk Hnd].
    apply elem_of_cons in Hin as [[= <- <-]|Hin].
    + by rewrite String.eqb_refl.
    + destruct (String.eqb_spec k key) as [->|Hne]; [|by apply IH].
      destruct Hk. apply list_elem_of_fmap. by exists (key, v).
Qed.

Lemma merge_loop_fixed (self : json → json → res json) ri oi :
  (∀ k v, (k, v) ∈ oi →
     if is_obj v
     then ∃ r', dict_get ri k = Some r' ∧ self r' v = Ok r'
     else dict_get ri k = Some v) →
  merge_loop self (JObj ri) oi = Ok (JObj ri).
Proof.
  induction oi as [|[k0 v0] oi IH]; intros Hall; simpl; [done|].
  pose proof (Hall k0 v0 ltac:(left)) as H0.
  assert (Hrest : merge_loop self (JObj ri) oi = Ok (JObj ri)).
  { apply IH. intros k v Hin. apply Hall. by right. }
  destruct (is_obj v0).
  - destruct H0 as (r' & Hget & Hself). rewrite Hget. simpl. rewrite Hself. simpl.
    by rewrite (dict_set_same ri k0 r' Hget).
  - by rewrite (dict_set_same ri k0 v0 H0).
Qed.

Lemma merge_loop_nonobj (self : json → json → res json) t oi r :
  is_obj t = false → merge_loop self t oi = Ok r → oi = [] ∧ r = t.
Proof.
  intros Ht. destruct oi as [|[k0 v0] oi]; simpl.
  - by intros [= <-].
  - destruct t; [| |done]; by destruct (is_obj v0).
Qed.

Lemma merge_idempotent t o r : wf_json o → merge t o = Ok r → merge r o = Ok r.
Proof.
  revert t r. induction o as [a|js _|oi IH] using json_ind'; intros t r Hwf; simpl;
    [done..|].
  apply wf_json_obj in Hwf as [Hnd Hwf]. intros Hrun.
  destruct (is_obj t) eqn:Ht.
  2:{ apply merge_loop_nonobj in Hrun as [-> ->]; done. }
  destruct t as [| |ti]; [done..|].
  apply merge_loop_get in Hrun as (ri & -> & Hri); [|done].
  apply merge_loop_fixed. intros k v Hin.
  pose proof (dict_get_elem oi k v Hnd Hin) as Hget.
  specialize (Hri k). rewrite Hget in Hri.
  destruct (is_obj v); [|done].
  destruct Hri as (r' & Hr' & Hgr). exists r'. split; [done|].
  rewrite Forall_forall in IH. rewrite Forall_forall in Hwf.
  eapply (IH _ Hin); [|exact Hr']. by apply (Hwf _ Hin).
Qed.

(** X9: applying the same overrides a second time changes nothing: when
    [update_dict] turned [t] into [r], it turns [r] into [r]. *)
Theorem update_dict_idempotent t o r :
  wf_json o → merges_to t o (Ok r) → merges_to r o (Ok r).
Proof.
  intros Hwf Hm.
  pose proof (merges_to_det _ _ _ _ Hm (merges_to_merge _ _ Hwf)) as Hr.
  symmetry in Hr. apply merge_idempotent in Hr; [|done].
  rewrite <-Hr. by apply merges_to_merge.
Qed.

Lemma update_dict_idempotent_witness :
  merges_to nested_merged nested_overrides (Ok nested_merged).
Proof.
  apply (update_dict_idempotent nested_target nested_overrides nested_merged).
  - apply wf_nested_overrides.
  - apply (merges_to_merge nested_target nested_overrides wf_nested_overrides).
Defined.

Lemma dict_set_absent {V} (d : list (string * V)) key v :
  key ∉ d.*1 → dict_set d key v = d ++ [(key, v)].
Proof.
  induction d as [|[k w] d IH]; csimpl; [done|]. intros Hnin.
  apply not_elem_of_cons in Hnin as [Hne Hnin].
  destruct (String.eqb_spec k key) as [->|_]; [done|]. by rewrite IH.
Qed.

Lemma merge_loop_fresh (self : json → json → res json) pre oi :
  NoDup oi.*1 → (∀ k, k ∈ oi.*1 → k ∉ pre.*1) →
  Forall (λ kv, is_obj kv.2 = true → self (JObj []) kv.2 = Ok kv.2) oi →
  merge_loop self (JObj pre) oi = Ok (JObj (pre ++ oi)).
Proof.
  intros Hnd Hpre Hall. revert pre Hpre.
  induction Hall as [|[k0 v0] oi H0 _ IH]; intros pre Hpre; csimpl in *.
  - by rewrite app_nil_r.
  - apply NoDup_cons in Hnd as [Hk0 Hnd].
    assert (Hk0pre : k0 ∉ pre.*1) by (apply Hpre; left).
    assert (Hget : dict_get pre k0 = None) by by apply dict_get_None.
    assert (Hnext : merge_loop self (JObj (pre ++ [(k0, v0)])) oi =
                    Ok (JObj (pre ++ (k0, v0) :: oi))).
    { rewrite (IH Hnd); [by rewrite <-app_assoc|]. intros k Hk.
      rewrite fmap_app, elem_of_app. intros [Hin|Hin].
      - by apply (Hpre k); [right|].
      - apply elem_of_cons in Hin as [->|Hin]; [done|]. by apply elem_of_nil in Hin. }
    destruct (is_obj v0).
    + rewrite Hget. simpl. rewrite (H0 eq_refl). simpl.
      by rewrite dict_set_absent.
    + by rewrite dict_set_absent.
Qed.

Lemma merge_into_empty o :
  wf_json o → is_obj o = true → merge (JObj []) o = Ok o.
Proof.
  induction o as [a|js _|oi IH] using json_ind'; intros Hwf Hobj; [done..|].
  apply wf_json_obj in Hwf as [Hnd Hwf]. simpl.
  rewrite (merge_loop_fresh _ [] oi); [done | done | |].
  - intros k _. apply not_elem_of_nil.
  - apply Forall_forall. intros kv Hkv Hobjkv.
    rewrite Forall_forall in IH. rewrite Forall_forall in Hwf.
    apply (IH _ Hkv); [by apply Hwf | done].
Qed.

(** X10: merged into an empty mapping, a mapping document comes out as it
    is: same keys, same order, same values at every depth. *)
Theorem update_dict_into_empty o :
  wf_json o → is_obj o = true → merges_to (JObj []) o (Ok o).
Proof.
  intros Hwf Hobj. pose proof (merges_to_merge (JObj []) o Hwf) as Hm.
  by rewrite (merge_into_empty o Hwf Hobj) in Hm.
Qed.

Lemma update_dict_into_empty_witness :
  merges_to (JObj []) nested_overrides (Ok nested_overrides).
Proof.
  apply (update_dict_into_empty nested_overrides);
    [apply wf_nested_overrides | reflexivity].
Defined.

(** X11: with empty overrides [update_dict] returns [initial] as it is,
    mapping or not; with overrides that are not a mapping it raises
    [AttributeError]. *)
Theorem update_dict_edge_overrides t o :
  merges_to t (JObj []) (Ok t) ∧
  (wf_json o → is_obj o = false → merges_to t o (Err AttributeError)).
Proof.
  split.
  - apply (merges_to_merge t (JObj [])). simpl. split; [constructor | done].
  - intros Hwf Hobj. pose proof (merges_to_merge t o Hwf) as Hm.
    by destruct o.
Qed.

Lemma update_dict_edge_overrides_witness :
  merges_to scalar_target (JArr [jint 1]) (Err AttributeError).
Proof.
  apply (proj2 (update_dict_edge_overrides scalar_target (JArr [jint 1])));
    [by simpl | reflexivity].
Defined.

(** ** pull *)

Lemma pull_body_cache env fuel file locale s :
  cache (pull_body env fuel file locale s).2 = cache s.
Proof.
  unfold pull_body. destruct (SUPPORTED_LOCALES env !! lower locale); [|done].
  destruct (get_data env file (split_head "-" (lower locale)) s) as [r1 s1] eqn:E1.
  apply get_data_spec in E1 as (Hc1 & _ & _).
  destruct r1 as [data|e]; [|done].
  destruct (contains "-" (lower locale)); [|done].
  destruct (get_data env file (lower locale) s1) as [r2 s2] eqn:E2.
  apply get_data_spec in E2 as (Hc2 & _ & _).
  destruct r2 as [other|e]; [|simpl; congruence].
  destruct (update_dict fuel data other (heap_of s2)). simpl. congruence.
Qed.

(** X12: a call of [pull] stores its result under its own arguments when it
    returns and stores nothing when it raises; it never drops or changes
    another entry of the cache. *)
Theorem pull_cache_effect env fuel file locale s :
  let out := pull env fuel file locale s in
  cache out.2 =
    match out.1 with
    | Ok v => <[(file, locale) := v]> (cache s)
    | Err _ => cache s
    end ∧
  (∀ key w, cache s !! key = Some w → cache out.2 !! key = Some w).
Proof.
  unfold pull. destruct (cache s !! (file, locale)) as [v|] eqn:Hhit; simpl.
  { split; [by rewrite insert_id | done]. }
  pose proof (pull_body_cache env fuel file (default "en" locale) s) as Hc.
  destruct (pull_body env fuel file (default "en" locale) s) as [[v|e] s'];
    simpl in *; rewrite Hc; (split; [done|]); [|done].
  intros key w Hw. rewrite lookup_insert_ne; [done|]. intros <-. congruence.
Qed.

Lemma pull_body_opened env fuel file locale s :
  opened (pull_body env fuel file locale s).2 =
    match SUPPORTED_LOCALES env !! lower locale with
    | None => opened s
    | Some _ =>
        let base_path := data_path env (split_head "-" (lower locale)) file in
        match parse env base_path with
        | Ok _ =>
            if contains "-" (lower locale)
            then data_path env (lower locale) file :: base_path :: opened s
            else base_path :: opened s
        | Err _ => base_path :: opened s
        end
    end.
Proof.
  unfold pull_body. destruct (SUPPORTED_LOCALES env !! lower locale); [|done].
  destruct (get_data env file (split_head "-" (lower locale)) s) as [r1 s1] eqn:E1.
  apply get_data_spec in E1 as (_ & Ho1 & Hp1). cbv zeta.
  destruct (parse env (data_path env (split_head "-" (lower locale)) file)) as [jb|e].
  2:{ by destruct Hp1 as [-> _]. }
  destruct Hp1 as (data & -> & _).
  destruct (contains "-" (lower locale)); [|done].
  destruct (get_data env file (lower locale) s1) as [r2 s2] eqn:E2.
  apply get_data_spec in E2 as (_ & Ho2 & _).
  destruct r2 as [other|e]; [|simpl; congruence].
  destruct (update_dict fuel data other (heap_of s2)). simpl. congruence.
Qed.

(** X13: [pull] opens no file on a cache hit or for an unsupported code;
    otherwise it opens the base file, and after it the region file only
    when the code has a ['-'] and the base file parsed. *)
Theorem pull_opened env fuel file locale s :
  opened (pull env fuel file locale s).2 =
    match cache s !! (file, locale) with
    | Some _ => opened s
    | None =>
        let code := lower (default "en" locale) in
        match SUPPORTED_LOCALES env !! code with
        | None => opened s
        | Some _ =>
            let base_path := data_path env (split_head "-" code) file in
            match parse env base_path with
            | Ok _ =>
                if contains "-" code
                then data_path env code file :: base_path :: opened s
                else base_path :: opened s
            | Err _ => base_path :: opened s
            end
        end
    end.
Proof.
  unfold pull. destruct (cache s !! (file, locale)); [done|].
  transitivity (opened (pull_body env fuel file (default "en" locale) s).2);
    [|apply pull_body_opened].
  by destruct (pull_body env fuel file (default "en" locale) s) as [[v|e] s'].
Qed.

(** X14: when the region file of a supported code is missing, [pull] raises
    [FileNotFoundError] for the region path although the base file was read:
    it does not fall back on the base document, and it caches nothing. *)
Theorem pull_region_file_missing env fuel file locale s base :
  cache s !! (file, Some locale) = None →
  is_Some (SUPPORTED_LOCALES env !! lower locale) →
  contains "-" (lower locale) = true →
  parse env (data_path env (split_head "-" (lower locale)) file) = Ok base →
  disk env (data_path env (lower locale) file) = NoFile →
  let out := pull env fuel file (Some locale) s in
  out.1 = Err (FileNotFoundError (data_path env (lower locale) file)) ∧
  cache out.2 = cache s ∧
  opened out.2 =
    data_path env (lower locale) file ::
    data_path env (split_head "-" (lower locale)) file :: opened s.
Proof.
  intros Hmiss [info Hinfo] Hdash Hbase Hregion out.
  assert (out.1 = Err (FileNotFoundError (data_path env (lower locale) file))) as Hout.
  { unfold out, pull. rewrite Hmiss.
    change (default "en" (Some locale)) with locale. unfold pull_body.
    rewrite Hinfo.
    destruct (get_data env file (split_head "-" (lower locale)) s) as [r1 s1] eqn:E1.
    apply get_data_spec in E1 as (_ & _ & Hp1). rewrite Hbase in Hp1.
    destruct Hp1 as (data & -> & _). rewrite Hdash.
    destruct (get_data env file (lower locale) s1) as [r2 s2] eqn:E2.
    apply get_data_spec in E2 as (_ & _ & Hp2). unfold parse in Hp2.
    rewrite Hregion in Hp2. by destruct Hp2 as [-> _]. }
  split; [done|]. split.
  - pose proof (proj1 (pull_cache_effect env fuel file (Some locale) s)) as Hc.
    fold out in Hc. by rewrite Hout in Hc.
  - unfold out. rewrite pull_opened, Hmiss.
    change (default "en" (Some locale)) with locale. cbv zeta.
    by rewrite Hinfo, Hbase, Hdash.
Qed.

Lemma pull_region_file_missing_witness :
  let out := pull base_only_env 3 "sample.json" (Some "en-gb") init_state in
  out.1 = Err (FileNotFoundError "/site/mimesis/data/en-gb/sample.json") ∧
  cache out.2 = ∅ ∧
  opened out.2 =
    ["/site/mimesis/data/en-gb/sample.json"; "/site/mimesis/data/en/sample.json"].
Proof.
  apply (pull_region_file_missing base_only_env 3 "sample.json" "en-gb" init_state
           nested_target).
  - reflexivity.
  - vm_compute. by eexists.
  - reflexivity.
  - reflexivity.
  - reflexivity.
Defined.

(** X15: [pull(file)] without a locale returns what parsing the [en] file
    gives. *)
Theorem pull_default_locale env fuel file s :
  disk_wf env → reachable env s →
  is_Some (SUPPORTED_LOCALES env !! "en") →
  yields (heap_of (pull env fuel file None s).2) (pull env fuel file None s).1
         (parse env (data_path env "en" file)).
Proof.
  intros Hwf Hs Hsup. apply reachable_cache_ok in Hs; [|done].
  destruct (pull env fuel file None s) as [r s'] eqn:E.
  destruct (pull_sound _ _ _ _ _ _ _ Hwf Hs E) as [_ [[_ Hdeep]|Hy]]; simpl in *.
  - by destruct Hdeep as (region & _ & Hd & _).
  - by rewrite (pull_doc_simple env file "en") in Hy.
Qed.

Lemma pull_default_locale_witness :
  yields (heap_of (pull sample_env 0 "sample.json" None init_state).2)
         (pull sample_env 0 "sample.json" None init_state).1 (Ok nested_target).
Proof.
  apply (pull_default_locale sample_env 0 "sample.json" init_state).
  - apply sample_disk_wf.
  - constructor.
  - vm_compute. by eexists.
Defined.

(** X16: for a code that is not in the table [pull] changes nothing at all:
    it opens no file, allocates nothing, caches nothing, and the message of
    the exception names the lower-cased code. *)
Theorem pull_unsupported_no_effect env fuel file locale s :
  disk_wf env → reachable env s →
  SUPPORTED_LOCALES env !! lower (default "en" locale) = None →
  pull env fuel file locale s =
    (Err (UnsupportedLocale
            ("Locale " +:+ lower (default "en" locale) +:+ " is not supported")), s).
Proof.
  intros Hwf Hs Hsup. apply reachable_cache_ok in Hs; [|done]. unfold pull.
  destruct (cache s !! (file, locale)) as [v|] eqn:Hhit.
  - destruct (Hs _ _ _ Hhit) as (j & Hdoc & _). unfold pull_doc in Hdoc.
    by rewrite Hsup in Hdoc.
  - unfold pull_body. by rewrite Hsup.
Qed.

Lemma pull_unsupported_no_effect_witness :
  pull sample_env 3 "sample.json" (Some "FR") init_state =
    (Err (UnsupportedLocale "Locale fr is not supported"), init_state).
Proof.
  apply (pull_unsupported_no_effect sample_env 3 "sample.json" (Some "FR") init_state).
  - apply sample_disk_wf.
  - constructor.
  - by vm_compute.
Defined.

(** X17: no later call of [pull] disturbs a cached document: the entry keeps
    its reference, and the reference keeps denoting the same document. *)
Theorem pull_keeps_cached_documents env fuel file locale s key v j :
  disk_wf env → reachable env s →
  cache s !! key = Some v → Reifies (heap_of s) v j →
  let s' := (pull env fuel file locale s).2 in
  cache s' !! key = Some v ∧ Reifies (heap_of s') v j.
Proof.
  intros Hwf Hs Hkey Hv s'. split.
  { by apply (proj2 (pull_cache_effect env fuel file locale s)). }
  apply reachable_cache_ok in Hs; [|done]. destruct key as [f l].
  destruct (Hs _ _ _ Hkey) as (j' & _ & Hrep).
  rewrite (Reifies_det _ _ _ _ Hv (RepOn_Reifies _ _ _ _ Hrep)).
  apply Hrep. by apply pull_heap_frame.
Qed.

Lemma pull_keeps_cached_documents_witness :
  let s := (pull sample_env 0 "sample.json" (Some "en") init_state).2 in
  let s' := (pull sample_env 3 "sample.json" (Some "en-gb") s).2 in
  cache s' !! ("sample.json", Some "en") = Some (VRef 1) ∧
  Reifies (heap_of s') (VRef 1) nested_target.
Proof.
  apply (pull_keeps_cached_documents sample_env 3 "sample.json" (Some "en-gb")
           (pull sample_env 0 "sample.json" (Some "en") init_state).2
           ("sample.json", Some "en") (VRef 1) nested_target).
  - apply sample_disk_wf.
  - constructor. constructor.
  - by vm_compute.
  - exists 2%nat. by vm_compute.
Defined.

(** X18: a file name that starts with ['/'] makes [pull] read that very
    path: the data directory and the locale are left out of it. *)
Theorem pull_absolute_file env fuel file locale s :
  disk_wf env → reachable env s →
  is_Some (SUPPORTED_LOCALES env !! lower locale) →
  contains "-" (lower locale) = false →
  startswith "/" file = true →
  yields (heap_of (pull env fuel file (Some locale) s).2)
         (pull env fuel file (Some locale) s).1 (parse env file).
Proof.
  intros Hwf Hs Hsup Hdash Hfile. apply reachable_cache_ok in Hs; [|done].
  destruct (pull env fuel file (Some locale) s) as [r s'] eqn:E.
  destruct (pull_sound _ _ _ _ _ _ _ Hwf Hs E) as [_ [[_ Hdeep]|Hy]]; simpl in *.
  - destruct Hdeep as (region & _ & Hd & _). congruence.
  - rewrite pull_doc_simple in Hy by done.
    unfold data_path, path_join in Hy. by rewrite Hfile in Hy.
Qed.

Lemma pull_absolute_file_witness :
  yields (heap_of (pull sample_env 0 "/tmp/x.json" (Some "en") init_state).2)
         (pull sample_env 0 "/tmp/x.json" (Some "en") init_state).1
         (Err (FileNotFoundError "/tmp/x.json")).
Proof.
  apply (pull_absolute_file sample_env 0 "/tmp/x.json" "en" init_state).
  - apply sample_disk_wf.
  - constructor.
  - vm_compute. by eexists.
  - reflexivity.
  - reflexivity.
Defined.

(** ** download_image *)

Lemma rsplit_last_no_sep sep s : contains sep (rsplit_last sep s) = false.
Proof.
  induction s as [|c s IH]; [done|].
  change (rsplit_last sep (String c s))
    with (if contains sep (String c s) then rsplit_last sep s else String c s).
  by destruct (contains sep (String c s)) eqn:E.
Qed.

Lemma rsplit_last_suffix sep s :
  ∃ prefix, s = prefix +:+ rsplit_last sep s ∧
            (prefix = EmptyString ∨ endswith sep prefix = true).
Proof.
  induction s as [|c s (p & Hp & Hend)]; [exists EmptyString; auto|].
  change (rsplit_last sep (String c s))
    with (if contains sep (String c s) then rsplit_last sep s else String c s).
  destruct (contains sep (String c s)) eqn:E; [|exists EmptyString; auto].
  exists (String c p). split.
  - change (String c p +:+ rsplit_last sep s) with (String c (p +:+ rsplit_last sep s)).
    by rewrite <-Hp.
  - right. destruct Hend as [->|Hend].
    + change (s = rsplit_last sep s) in Hp. simpl in E.
      change (Ascii.eqb c sep = true). destruct (Ascii.eqb c sep); [done|].
      rewrite Hp in E. by rewrite rsplit_last_no_sep in E.
    + destruct p; [done|]. exact Hend.
Qed.

(** X19: for a URL that is a string, [download_image] makes one transfer,
    of that URL to [save_path] with the name put directly behind it; the
    name has no ['/'] in it and is the end of the URL, right after the last
    ['/'] if there is one.  The call returns that name when the transfer
    returns and raises what the transfer raises. *)
Theorem download_image_name urlretrieve url save_path unverified_ctx w :
  let out := download_image urlretrieve (Some url) save_path unverified_ctx w in
  ∃ name prefix,
    url = prefix +:+ name ∧ contains "/" name = false ∧
    (prefix = EmptyString ∨ endswith "/" prefix = true) ∧
    transfers out.2 = (url, save_path +:+ name) :: transfers w ∧
    out.1 = match urlretrieve url (save_path +:+ name) with
            | None => Ok (Some name)
            | Some e => Err e
            end.
Proof.
  destruct (rsplit_last_suffix "/" url) as (prefix & Hurl & Hprefix).
  exists (rsplit_last "/" url), prefix.
  split; [done|]. split; [apply rsplit_last_no_sep|]. split; [done|].
  unfold download_image.
  destruct (urlretrieve url (save_path +:+ rsplit_last "/" url)) as [e|];
    destruct unverified_ctx; simpl; eauto.
Qed.

(** ** The further properties on sample inputs *)

Lemma luhn_checksum_value_error_witness : luhn_checksum "12a4" = Err ValueError.
Proof.
  apply (proj2 (luhn_checksum_value_error "12a4")). intros Hall.
  apply Forall_cons in Hall as [_ Hall]. apply Forall_cons in Hall as [_ Hall].
  apply Forall_cons in Hall as [Ha _]. unfold is_digit in Ha. simpl in Ha. lia.
Defined.

Lemma check_gender_int_witness :
  check_gender 0 (GInt (-1)) =
    Err (UnexpectedGender "Gender must be 0, 1, 2, 9, f, female, m, male.").
Proof. apply (proj2 (check_gender_int 0 (-1))). lia. Defined.

Lemma pull_cache_effect_witness :
  let s := (pull sample_env 0 "sample.json" (Some "en") init_state).2 in
  cache (pull sample_env 3 "sample.json" (Some "en-gb") s).2
    !! ("sample.json", Some "en") = Some (VRef 1).
Proof.
  apply (proj2 (pull_cache_effect sample_env 3 "sample.json" (Some "en-gb")
                  (pull sample_env 0 "sample.json" (Some "en") init_state).2)).
  by vm_compute.
Defined.
